(** * Response validation of the chess-coach experiment scripts

    A shallow embedding of the text-validation core of
    [Scripts/experiments/evaluator.py], [Scripts/benchmark/bench_m4.py],
    [Scripts/experiments/bench_shallow_fix.py] and
    [Scripts/experiments/bench_final_accuracy.py], with the properties the
    specification states about it.

    Texts are lists of characters.  A character is a code point below 256
    (the type [ascii]); the Python predicates on characters ([str.isspace],
    [str.lower], the classes [\s], [\w], [\d] of [re]) are modelled on that
    range.  Code that can raise an uncaught exception returns [option],
    [None] standing for the exception. *)

From Stdlib Require Import String Ascii List Sorted Arith NArith ZArith Lia Bool.
Import ListNotations.

Set Implicit Arguments.

(** ** Python strings *)

Module PyStr.

Definition text := list ascii.

Definition T (s : string) : text := list_ascii_of_string s.

(** A text literal in which the apostrophe stands for the double quote. *)
Definition Tq (s : string) : text :=
  map (fun c => if Ascii.eqb c "'" then "034"%char else c) (list_ascii_of_string s).

Definition code (c : ascii) : nat := nat_of_ascii c.

Definition between (lo hi : nat) (c : ascii) : bool :=
  (lo <=? code c) && (code c <=? hi).

Definition chr_eqb (a b : ascii) : bool := Ascii.eqb a b.

Fixpoint text_eqb (s t : text) : bool :=
  match s, t with
  | [], [] => true
  | a :: s', b :: t' => chr_eqb a b && text_eqb s' t'
  | _, _ => false
  end.

(** [str.isspace] on one character: TAB..CR, FS..US, space, NEL, NBSP. *)
Definition isspace (c : ascii) : bool :=
  between 9 13 c || between 28 32 c || (code c =? 133) || (code c =? 160).

(** [str.lower] on one character: A-Z and the capital letters of Latin-1. *)
Definition lower_chr (c : ascii) : ascii :=
  if between 65 90 c then ascii_of_nat (code c + 32)
  else if between 192 222 c && negb (code c =? 215) then ascii_of_nat (code c + 32)
  else c.

Definition lower (s : text) : text := map lower_chr s.

(** [str.isalnum] or underscore on one character: the class [\w] of [re]. *)
Definition isword (c : ascii) : bool :=
  between 48 57 c || between 65 90 c || between 97 122 c || (code c =? 95)
  || (code c =? 170) || (code c =? 178) || (code c =? 179) || (code c =? 181)
  || (code c =? 185) || (code c =? 186) || between 188 190 c
  || between 192 214 c || between 216 246 c || between 248 255 c.

Definition isdigit (c : ascii) : bool := between 48 57 c.

Fixpoint lstrip (s : text) : text :=
  match s with
  | c :: r => if isspace c then lstrip r else s
  | [] => []
  end.

Definition rstrip (s : text) : text := rev (lstrip (rev s)).

(** [s.strip()] *)
Definition strip (s : text) : text := rstrip (lstrip s).

(** [s.split(d)] for a one-character separator [d]. *)
Fixpoint split (d : ascii) (s : text) : list text :=
  match s with
  | [] => [[]]
  | c :: r =>
      if chr_eqb c d then [] :: split d r
      else match split d r with
           | h :: t => (c :: h) :: t
           | [] => [[c]]
           end
  end.

(** [sep.join(parts)] *)
Fixpoint join (sep : text) (parts : list text) : text :=
  match parts with
  | [] => []
  | [x] => x
  | x :: r => x ++ sep ++ join sep r
  end.

(** The first element of [s.split()], the split on runs of white space. *)
Fixpoint take_token (s : text) : text :=
  match s with
  | c :: r => if isspace c then [] else c :: take_token r
  | [] => []
  end.

Definition first_token (s : text) : option text :=
  match lstrip s with
  | [] => None
  | r => Some (take_token r)
  end.

(** [s.find(c)] and [s.rfind(c)] for one character, [None] for -1. *)
Fixpoint find (c : ascii) (s : text) : option nat :=
  match s with
  | [] => None
  | x :: r => if chr_eqb x c then Some 0
              else match find c r with Some i => Some (S i) | None => None end
  end.

Definition rfind (c : ascii) (s : text) : option nat :=
  match find c (rev s) with
  | Some i => Some (length s - 1 - i)
  | None => None
  end.

(** [s[i:j]] for [0 <= i], [0 <= j]. *)
Definition slice (i j : nat) (s : text) : text := firstn (j - i) (skipn i s).

Fixpoint startswith (p s : text) : bool :=
  match p, s with
  | [], _ => true
  | a :: p', b :: s' => chr_eqb a b && startswith p' s'
  | _ :: _, [] => false
  end.


(** [s.splitlines()]: the lines of [s], cut at line feed, carriage return
    (with a following line feed), vertical tab, form feed, FS, GS, RS and NEL;
    no empty last line. *)
Definition is_linebreak (c : ascii) : bool :=
  between 10 13 c || between 28 30 c || (code c =? 133).

Fixpoint splitlines_from (s : text) (cur : text) : list text :=
  match s with
  | [] => match cur with [] => [] | _ => [rev cur] end
  | c :: r =>
      if is_linebreak c then
        rev cur :: match c, r with
                   | "013"%char, "010"%char :: r' => splitlines_from r' []
                   | _, _ => splitlines_from r []
                   end
      else splitlines_from r (c :: cur)
  end.

Definition splitlines (s : text) : list text := splitlines_from s [].

(** [sub in s] *)
Fixpoint contains (sub s : text) : bool :=
  startswith sub s || match s with [] => false | _ :: r => contains sub r end.

(** [s.split()]: the maximal runs of characters that are not white space. *)
Fixpoint split_ws_from (s : text) (cur : text) : list text :=
  match s with
  | [] => match cur with [] => [] | _ => [rev cur] end
  | c :: r =>
      if isspace c then
        match cur with
        | [] => split_ws_from r []
        | _ => rev cur :: split_ws_from r []
        end
      else split_ws_from r (c :: cur)
  end.

Definition split_ws (s : text) : list text := split_ws_from s [].

(** [str.upper] on one character, as code points: a-z and the small letters
    of Latin-1 move down by 32; the sharp s becomes SS, the micro sign and
    the y with diaeresis leave the range. *)
Definition upper_chr (c : ascii) : list N :=
  if between 97 122 c || (between 224 254 c && negb (code c =? 247))
  then [N.of_nat (code c - 32)]
  else if code c =? 223 then [83; 83]%N
  else if code c =? 181 then [924]%N
  else if code c =? 255 then [376]%N
  else [N.of_nat (code c)].

Definition upper (s : text) : list N := flat_map upper_chr s.

(** The code points of a text. *)
Definition points (s : text) : list N := map (fun c => N.of_nat (code c)) s.

(** [s.startswith(p)] and [p in s] on code points. *)
Fixpoint startswith_points (p s : list N) : bool :=
  match p, s with
  | [], _ => true
  | a :: p', b :: s' => N.eqb a b && startswith_points p' s'
  | _ :: _, [] => false
  end.

Fixpoint contains_points (sub s : list N) : bool :=
  startswith_points sub s
  || match s with [] => false | _ :: r => contains_points sub r end.

(** [s < t] or [s == t] on strings: by code point, a proper prefix first. *)
Fixpoint text_leb (s t : text) : bool :=
  match s, t with
  | [], _ => true
  | _ :: _, [] => false
  | a :: s', b :: t' =>
      (code a <? code b) || ((code a =? code b) && text_leb s' t')
  end.

(** [sorted(l)] for the order [le] on the keys: a stable sort. *)
Section Sorting.

Variable A : Type.
Variable le : A -> A -> bool.

Fixpoint insert_sorted (x : A) (l : list A) : list A :=
  match l with
  | [] => [x]
  | y :: l' => if le x y then x :: l else y :: insert_sorted x l'
  end.

Definition sorted (l : list A) : list A := fold_right insert_sorted [] l.

End Sorting.

(** [s.capitalize()]: the first character in upper case, the others in lower
    case; for a first character whose capital is a single character of the
    range. *)
Definition capitalize (s : text) : text :=
  match s with
  | [] => []
  | c :: r =>
      (if between 97 122 c || (between 224 254 c && negb (code c =? 247))
       then ascii_of_nat (code c - 32) else c) :: lower r
  end.

End PyStr.
Import PyStr.

(** ** Regular expressions of Python's [re]

    A backtracking matcher in continuation-passing style.  It reads the text
    from a position given as the reversed text to its left and the text to its
    right; the left part serves [^], [\b] and look-behind.  Alternatives are
    tried in order, [*] and [+] take the longest run first, [*?] the
    shortest; the repetitions of the patterns modelled here all range over a
    single character class.  Where a comment quotes a pattern, a blank is
    put between a star and a closing parenthesis. *)

Module Re.

Definition charset := ascii -> bool.

(** The groups of a match: group number to captured text. *)
Definition captures := nat -> option text.

Definition no_groups : captures := fun _ => None.

Definition set_group (n : nat) (w : text) (g : captures) : captures :=
  fun m => if m =? n then Some w else g m.

Inductive regex : Type :=
| Eps
| Chr (p : charset)
| Lit (s : text)
| LitI (s : text)
| Cat (r1 r2 : regex)
| Alt (r1 r2 : regex)
| Opt (r : regex)
| Star (p : charset)
| Plus (p : charset)
| StarLazy (p : charset)
| Grp (n : nat) (r : regex)
| Bol
| Eol
| WordB
| NotBehind (p : charset)
| NotAhead (p : charset).

(** [^] and [$] under [re.MULTILINE]. *)
Definition at_bol (l : text) : bool :=
  match l with [] => true | c :: _ => chr_eqb c "010" end.

Definition at_eol (a : text) : bool :=
  match a with [] => true | c :: _ => chr_eqb c "010" end.

Definition head_is (p : charset) (s : text) : bool :=
  match s with [] => false | c :: _ => p c end.

(** [\b]: exactly one side of the position is a word character. *)
Definition at_wordb (l a : text) : bool :=
  xorb (head_is isword l) (head_is isword a).

(** The text between two positions, the second to the right of the first. *)
Definition captured (l l' : text) : text :=
  rev (firstn (length l' - length l) l').

(** A literal; under [re.IGNORECASE] when [ci] is set: the pattern text is in
    lower case and a character matches when its lower case does. *)
Fixpoint lit_ok (ci : bool) (s w : text) : bool :=
  match s, w with
  | [], [] => true
  | x :: s', c :: w' =>
      chr_eqb (if ci then lower_chr c else c) x && lit_ok ci s' w'
  | _, _ => false
  end.

Section Matcher.

Variable R : Type.

Definition cont := text -> text -> captures -> option R.

Definition orelse (x y : option R) : option R :=
  match x with Some _ => x | None => y end.

Fixpoint run_lit (ci : bool) (s : text) (l a : text) (g : captures) (k : cont)
  : option R :=
  match s with
  | [] => k l a g
  | x :: s' =>
      match a with
      | c :: a' =>
          if chr_eqb (if ci then lower_chr c else c) x
          then run_lit ci s' (c :: l) a' g k
          else None
      | [] => None
      end
  end.

Fixpoint run_star (p : charset) (l a : text) (g : captures) (k : cont)
  : option R :=
  match a with
  | c :: a' =>
      if p c then orelse (run_star p (c :: l) a' g k) (k l a g) else k l a g
  | [] => k l a g
  end.

Fixpoint run_star_lazy (p : charset) (l a : text) (g : captures) (k : cont)
  : option R :=
  match k l a g with
  | Some x => Some x
  | None =>
      match a with
      | c :: a' => if p c then run_star_lazy p (c :: l) a' g k else None
      | [] => None
      end
  end.

Fixpoint run (r : regex) (l a : text) (g : captures) (k : cont) : option R :=
  match r with
  | Eps => k l a g
  | Chr p =>
      match a with
      | c :: a' => if p c then k (c :: l) a' g else None
      | [] => None
      end
  | Lit s => run_lit false s l a g k
  | LitI s => run_lit true s l a g k
  | Cat r1 r2 => run r1 l a g (fun l' a' g' => run r2 l' a' g' k)
  | Alt r1 r2 => orelse (run r1 l a g k) (run r2 l a g k)
  | Opt r1 => orelse (run r1 l a g k) (k l a g)
  | Star p => run_star p l a g k
  | Plus p =>
      match a with
      | c :: a' => if p c then run_star p (c :: l) a' g k else None
      | [] => None
      end
  | StarLazy p => run_star_lazy p l a g k
  | Grp n r1 =>
      run r1 l a g (fun l' a' g' => k l' a' (set_group n (captured l l') g'))
  | Bol => if at_bol l then k l a g else None
  | Eol => if at_eol a then k l a g else None
  | WordB => if at_wordb l a then k l a g else None
  | NotBehind p => if head_is p l then None else k l a g
  | NotAhead p => if head_is p a then None else k l a g
  end.

End Matcher.

(** A match object: the reversed text left of its start and of its end, the
    text right of its end, and its groups. *)
Record match_obj : Type := MatchObj {
  m_before : text;
  m_upto : text;
  m_rest : text;
  m_groups : captures
}.

(** [m.start()], [m.end()], [m.group(0)], [m.group(n)] *)
Definition m_start (m : match_obj) : nat := length (m_before m).
Definition m_end (m : match_obj) : nat := length (m_upto m).
Definition m_text (m : match_obj) : text := captured (m_before m) (m_upto m).
Definition group (m : match_obj) (n : nat) : option text := m_groups m n.

(** [pattern.match(text, pos)] at the position [l], [a]. *)
Definition match_at (r : regex) (l a : text) : option match_obj :=
  run r l a no_groups (fun l' a' g => Some (MatchObj l l' a' g)).

(** The leftmost match at or after the position [l], [a]. *)
Fixpoint search_from (r : regex) (l a : text) : option match_obj :=
  match match_at r l a with
  | Some m => Some m
  | None =>
      match a with
      | c :: a' => search_from r (c :: l) a'
      | [] => None
      end
  end.

(** [re.search(r, s)] *)
Definition search (r : regex) (s : text) : option match_obj :=
  search_from r [] s.

(** [re.finditer(r, s)]: the successive matches, each search starting where
    the previous match ended.  After an empty match the scan moves on by one
    character; none of the patterns modelled here matches the empty text. *)
Fixpoint finditer_from (fuel : nat) (r : regex) (l a : text) : list match_obj :=
  match fuel with
  | 0 => []
  | S fuel' =>
      match search_from r l a with
      | None => []
      | Some m =>
          m :: (if m_end m =? m_start m
                then match m_rest m with
                     | c :: a' => finditer_from fuel' r (c :: m_upto m) a'
                     | [] => []
                     end
                else finditer_from fuel' r (m_upto m) (m_rest m))
      end
  end.

Definition finditer (r : regex) (s : text) : list match_obj :=
  finditer_from (S (length s)) r [] s.

(** [re.sub(r, repl, s)] with the replacement computed from each match. *)
Fixpoint sub_pieces (repl : match_obj -> text) (pos : nat) (s : text)
  (ms : list match_obj) : text :=
  match ms with
  | [] => skipn pos s
  | m :: ms' =>
      slice pos (m_start m) s ++ repl m ++ sub_pieces repl (m_end m) s ms'
  end.

Definition sub (r : regex) (repl : match_obj -> text) (s : text) : text :=
  sub_pieces repl 0 s (finditer r s).

(** Character classes. *)
Definition any : charset := fun _ => true.
Definition not_newline : charset := fun c => negb (chr_eqb c "010").
Definition one_of (s : text) : charset := fun c => existsb (chr_eqb c) s.
Definition range (lo hi : ascii) : charset := between (code lo) (code hi).
Definition range_i (lo hi : ascii) : charset :=
  fun c => between (code lo) (code hi) (lower_chr c).
Definition letter : charset := fun c => between 65 90 c || between 97 122 c.

(** Concatenation of a list of patterns. *)
Fixpoint seq (rs : list regex) : regex :=
  match rs with
  | [] => Eps
  | [r] => r
  | r :: rs' => Cat r (seq rs')
  end.

Fixpoint alts (rs : list regex) : regex :=
  match rs with
  | [] => Eps
  | [r] => r
  | r :: rs' => Alt r (alts rs')
  end.

(** [re.findall(r, s)] for a pattern with one group, and with two groups;
    a group that took no part in the match gives the empty text. *)
Definition group_text (m : match_obj) (n : nat) : text :=
  match group m n with Some w => w | None => [] end.

Definition findall (r : regex) (s : text) : list text :=
  map (fun m => group_text m 1) (finditer r s).

Definition findall2 (r : regex) (s : text) : list (text * text) :=
  map (fun m => (group_text m 1, group_text m 2)) (finditer r s).

End Re.
Import Re.

(** ** The chess library, as far as the scripts use it *)

Module Chess.

Inductive piece_type : Type := PAWN | KNIGHT | BISHOP | ROOK | QUEEN | KING.

Inductive color : Type := WHITE | BLACK.

Record Piece : Type := mkPiece { p_type : piece_type; p_color : color }.

Definition piece_type_eqb (a b : piece_type) : bool :=
  match a, b with
  | PAWN, PAWN | KNIGHT, KNIGHT | BISHOP, BISHOP
  | ROOK, ROOK | QUEEN, QUEEN | KING, KING => true
  | _, _ => false
  end.

Definition color_eqb (a b : color) : bool :=
  match a, b with
  | WHITE, WHITE | BLACK, BLACK => true
  | _, _ => false
  end.

(** A square is its index, a1 = 0, b1 = 1, ..., h8 = 63. *)
Definition Square := nat.

(** The snapshot of a position: what stands on each square. *)
Definition Board := Square -> option Piece.

Definition SQUARES : list Square := List.seq 0 64.

(** [board.piece_at(sq)] *)
Definition piece_at (b : Board) (sq : Square) : option Piece := b sq.

(** [board.pieces(piece_type, color)], as the list of its squares. *)
Definition pieces (b : Board) (pt : piece_type) (c : color) : list Square :=
  filter (fun sq =>
            match b sq with
            | Some p => piece_type_eqb (p_type p) pt && color_eqb (p_color p) c
            | None => false
            end) SQUARES.

(** [chess.parse_square(name)]; [None] for its [ValueError]. *)
Definition parse_square (name : text) : option Square :=
  match name with
  | [f; r] =>
      if between 97 104 f && between 49 56 r
      then Some ((code f - 97) + 8 * (code r - 49))
      else None
  | _ => None
  end.

(** A decoder of the piece-placement field of a position string (eight ranks
    from the eighth down, separated by [/], digits for runs of empty
    squares).  The scripts take the decoder from the chess library; this one
    instantiates it on concrete positions. *)
Definition piece_of_symbol (c : ascii) : option Piece :=
  let col := if between 65 90 c then WHITE else BLACK in
  match lower_chr c with
  | "p"%char => Some (mkPiece PAWN col)
  | "n"%char => Some (mkPiece KNIGHT col)
  | "b"%char => Some (mkPiece BISHOP col)
  | "r"%char => Some (mkPiece ROOK col)
  | "q"%char => Some (mkPiece QUEEN col)
  | "k"%char => Some (mkPiece KING col)
  | _ => None
  end.

Fixpoint decode_rank (row : text) (prev_digit : bool) : option (list (option Piece)) :=
  match row with
  | [] => Some []
  | c :: row' =>
      if between 49 56 c then
        if prev_digit then None
        else match decode_rank row' true with
             | Some sqs => Some (repeat None (code c - 48) ++ sqs)
             | None => None
             end
      else match piece_of_symbol c with
           | Some p =>
               match decode_rank row' false with
               | Some sqs => Some (Some p :: sqs)
               | None => None
               end
           | None => None
           end
  end.

Fixpoint decode_ranks (rows : list text) : option (list (list (option Piece))) :=
  match rows with
  | [] => Some []
  | row :: rows' =>
      match decode_rank row false, decode_ranks rows' with
      | Some sqs, Some rest => if length sqs =? 8 then Some (sqs :: rest) else None
      | _, _ => None
      end
  end.

Definition decode_placement (fen : text) : option Board :=
  match first_token fen with
  | None => None
  | Some field =>
      match decode_ranks (split "/" field) with
      | Some ranks =>
          if length ranks =? 8
          then Some (fun sq =>
                       if sq <? 64
                       then nth (sq mod 8) (nth (7 - sq / 8) ranks []) None
                       else None)
          else None
      | None => None
      end
  end.

(** [chess.square_file], [chess.square_rank], [chess.square_name] *)
Definition square_file (sq : Square) : nat := sq mod 8.

Definition square_rank (sq : Square) : nat := sq / 8.

Definition square_name (sq : Square) : text :=
  [ascii_of_nat (97 + square_file sq); ascii_of_nat (49 + square_rank sq)].

End Chess.
Import Chess.

(** ** The JSON decoder [json.loads]

    The strict decoder of the Python library: objects, arrays, strings with
    their escapes, numbers (kept as written), [true], [false], [null] and the
    constants [NaN], [Infinity], [-Infinity]; white space is space, tab, line
    feed and carriage return; anything after the value is an error.  [None]
    stands for [JSONDecodeError]. *)

Module Json.

#[local] Set Warnings "-register-all".

Inductive json : Type :=
| JNull
| JBool (b : bool)
| JNumber (lit : text)
| JConst (name : text)
| JString (s : list N)
| JArray (items : list json)
| JObject (members : list (list N * json)).

Definition is_ws (c : ascii) : bool := existsb (chr_eqb c) (T " " ++ ["009"; "010"; "013"]%char).

Fixpoint skip_ws (s : text) : text :=
  match s with
  | c :: r => if is_ws c then skip_ws r else s
  | [] => []
  end.

Definition hex_digit (c : ascii) : option N :=
  if between 48 57 c then Some (N_of_ascii c - 48)%N
  else if between 97 102 c then Some (N_of_ascii c - 87)%N
  else if between 65 70 c then Some (N_of_ascii c - 55)%N
  else None.

Definition hex4 (a b c d : ascii) : option N :=
  match hex_digit a, hex_digit b, hex_digit c, hex_digit d with
  | Some x, Some y, Some z, Some w => Some (((x * 16 + y) * 16 + z) * 16 + w)%N
  | _, _, _, _ => None
  end.

Definition simple_escape (c : ascii) : option N :=
  match c with
  | "034"%char => Some 34%N
  | "\"%char => Some 92%N
  | "/"%char => Some 47%N
  | "b"%char => Some 8%N
  | "f"%char => Some 12%N
  | "n"%char => Some 10%N
  | "r"%char => Some 13%N
  | "t"%char => Some 9%N
  | _ => None
  end.

Definition surrogate_pair (uni uni2 : N) : bool :=
  ((55296 <=? uni) && (uni <=? 56319) && (56320 <=? uni2) && (uni2 <=? 57343))%N.

Definition join_surrogates (uni uni2 : N) : N :=
  (65536 + ((uni - 55296) * 1024 + (uni2 - 56320)))%N.

(** The text after an opening quote, up to the closing quote. *)
Fixpoint scanstring (s : text) (out : list N) : option (list N * text) :=
  match s with
  | [] => None
  | c :: r =>
      if chr_eqb c "034" then Some (rev out, r)
      else if code c <? 32 then None
      else if chr_eqb c "\" then
        match r with
        | [] => None
        | e :: r1 =>
            if chr_eqb e "u" then
              match r1 with
              | h1 :: h2 :: h3 :: h4 :: r' =>
                  match hex4 h1 h2 h3 h4 with
                  | None => None
                  | Some uni =>
                      match r' with
                      | b :: u :: k1 :: k2 :: k3 :: k4 :: r'' =>
                          match hex4 k1 k2 k3 k4 with
                          | Some uni2 =>
                              if chr_eqb b "\" && chr_eqb u "u" && surrogate_pair uni uni2
                              then scanstring r'' (join_surrogates uni uni2 :: out)
                              else scanstring r' (uni :: out)
                          | None => scanstring r' (uni :: out)
                          end
                      | _ => scanstring r' (uni :: out)
                      end
                  end
              | _ => None
              end
            else
              match simple_escape e with
              | Some ch => scanstring r1 (ch :: out)
              | None => None
              end
        end
      else scanstring r (N_of_ascii c :: out)
  end.

(** The number pattern of the decoder: an optional minus sign, [0] or a
    digit [1-9] and digits, an optional fraction [\.\d+], an optional exponent
    [[eE][-+]?\d+]. *)
Definition NUMBER_RE : regex :=
  seq [ Opt (Lit (T "-"));
        Alt (Lit (T "0")) (Cat (Chr (range "1" "9")) (Star isdigit));
        Opt (Cat (Lit (T ".")) (Plus isdigit));
        Opt (seq [ Chr (one_of (T "eE")); Opt (Chr (one_of (T "-+"))); Plus isdigit ]) ].

Definition constant (name : string) (s : text) : option (json * text) :=
  if startswith (T name) s
  then Some (JConst (T name), skipn (String.length name) s)
  else None.

Fixpoint key_eqb (a b : list N) : bool :=
  match a, b with
  | [], [] => true
  | x :: a', y :: b' => N.eqb x y && key_eqb a' b'
  | _, _ => false
  end.

(** [d[key] = v]: a key already there keeps its place and takes the value. *)
Fixpoint dict_put (d : list (list N * json)) (key : list N) (v : json)
  : list (list N * json) :=
  match d with
  | [] => [(key, v)]
  | (k, v') :: d' =>
      if key_eqb k key then (k, v) :: d' else (k, v') :: dict_put d' key v
  end.

(** The dictionary of the pairs of an object, in the order they were read. *)
Definition dict_of (pairs : list (list N * json)) : list (list N * json) :=
  fold_left (fun d kv => dict_put d (fst kv) (snd kv)) pairs [].

Definition as_object (r : option (list (list N * json) * text)) : option (json * text) :=
  match r with
  | Some (kvs, rest) => Some (JObject (dict_of kvs), rest)
  | None => None
  end.

Definition as_array (r : option (list json * text)) : option (json * text) :=
  match r with
  | Some (vs, rest) => Some (JArray vs, rest)
  | None => None
  end.

Definition as_string (r : option (list N * text)) : option (json * text) :=
  match r with
  | Some (str, rest) => Some (JString str, rest)
  | None => None
  end.

(** The values that are no string, object or array. *)
Definition scan_atom (s : text) : option (json * text) :=
  if startswith (T "null") s then Some (JNull, skipn 4 s)
  else if startswith (T "true") s then Some (JBool true, skipn 4 s)
  else if startswith (T "false") s then Some (JBool false, skipn 5 s)
  else
    match match_at NUMBER_RE [] s with
    | Some m => Some (JNumber (m_text m), m_rest m)
    | None =>
        match constant "NaN" s with
        | Some x => Some x
        | None =>
            match constant "Infinity" s with
            | Some x => Some x
            | None => constant "-Infinity" s
            end
        end
    end.

Fixpoint scan_once (fuel : nat) (s : text) : option (json * text) :=
  match fuel with
  | 0 => None
  | S fuel' =>
      match s with
      | [] => None
      | c :: r =>
          if chr_eqb c "034" then as_string (scanstring r [])
          else if chr_eqb c "{" then
            match skip_ws r with
            | c' :: rest =>
                if chr_eqb c' "}" then Some (JObject [], rest)
                else if chr_eqb c' "034" then as_object (members fuel' rest [])
                else None
            | [] => None
            end
          else if chr_eqb c "[" then
            match skip_ws r with
            | c' :: rest =>
                if chr_eqb c' "]" then Some (JArray [], rest)
                else as_array (items fuel' (c' :: rest) [])
            | [] => None
            end
          else scan_atom s
      end
  end

(** The members of an object, from just after the opening quote of a key. *)
with members (fuel : nat) (s : text) (out : list (list N * json))
  : option (list (list N * json) * text) :=
  match fuel with
  | 0 => None
  | S fuel' =>
      match scanstring s [] with
      | None => None
      | Some (key, rest) =>
          match skip_ws rest with
          | c1 :: rest1 =>
              if chr_eqb c1 ":" then
                match scan_once fuel' (skip_ws rest1) with
                | None => None
                | Some (v, rest2) =>
                    match skip_ws rest2 with
                    | c3 :: rest3 =>
                        if chr_eqb c3 "}" then Some (rev ((key, v) :: out), rest3)
                        else if chr_eqb c3 "," then
                          match skip_ws rest3 with
                          | c4 :: rest4 =>
                              if chr_eqb c4 "034"
                              then members fuel' rest4 ((key, v) :: out)
                              else None
                          | [] => None
                          end
                        else None
                    | [] => None
                    end
                end
              else None
          | [] => None
          end
      end
  end

(** The items of an array, from the first character of an item. *)
with items (fuel : nat) (s : text) (out : list json) : option (list json * text) :=
  match fuel with
  | 0 => None
  | S fuel' =>
      match scan_once fuel' s with
      | None => None
      | Some (v, rest) =>
          match skip_ws rest with
          | c1 :: rest1 =>
              if chr_eqb c1 "]" then Some (rev (v :: out), rest1)
              else if chr_eqb c1 "," then items fuel' (skip_ws rest1) (v :: out)
              else None
          | [] => None
          end
      end
  end.

(** [json.loads(s)].  Every call of the decoder consumes a character within
    two steps, so the fuel, above twice the length of the text, is enough. *)
Definition loads (s : text) : option json :=
  match scan_once (2 * length s + 2) (skip_ws s) with
  | Some (v, rest) =>
      match skip_ws rest with
      | [] => Some v
      | _ :: _ => None
      end
  | None => None
  end.

End Json.
Import Json.

(** ** [Scripts/experiments/evaluator.py] *)

Module Evaluator.

(** An uncaught exception is [None]. *)
Notation "x <- e ;; k" := (match e with Some x => k | None => None end)
  (at level 61, e at next level, right associativity).

(** A dictionary with text keys, [d.get(key)]. *)
Fixpoint dict_get (A : Type) (d : list (text * A)) (key : text) : option A :=
  match d with
  | [] => None
  | (k, v) :: d' => if text_eqb k key then Some v else dict_get d' key
  end.

Definition PIECE_NAMES : list (text * piece_type) :=
  [ (T "king", KING); (T "queen", QUEEN); (T "rook", ROOK);
    (T "bishop", BISHOP); (T "knight", KNIGHT); (T "pawn", PAWN) ].

(** [_COLOR_PREFIX + _ARTICLE + _PIECE_WORD + _ON + _SQ], [re.IGNORECASE]:
    [(?:(?:white|black)['’]?s?\s+)?(?:the\s+|a\s+)?]
    [(?P<piece>king|queen|rook|bishop|knight|pawn)(?:\s+on)?\s+(?P<square>[a-h][1-8])].
    The typographic apostrophe of the class lies outside the characters
    modelled.  Group 1 is [piece], group 2 is [square]. *)
Definition COLOR_PREFIX : regex :=
  Opt (seq [ Alt (LitI (T "white")) (LitI (T "black"));
             Opt (Chr (one_of (T "'"))); Opt (LitI (T "s")); Plus isspace ]).

Definition ARTICLE : regex :=
  Opt (Alt (Cat (LitI (T "the")) (Plus isspace)) (Cat (LitI (T "a")) (Plus isspace))).

Definition PIECE_WORD : regex :=
  Grp 1 (alts [ LitI (T "king"); LitI (T "queen"); LitI (T "rook");
                LitI (T "bishop"); LitI (T "knight"); LitI (T "pawn") ]).

Definition ON : regex := Cat (Opt (Cat (Plus isspace) (LitI (T "on")))) (Plus isspace).

Definition SQ : regex := Grp 2 (Cat (Chr (range_i "a" "h")) (Chr (range "1" "8"))).

Definition PIECE_REF_PATTERN : regex :=
  seq [ COLOR_PREFIX; ARTICLE; PIECE_WORD; ON; SQ ].

(** [(?<![a-zA-Z])(?P<symbol>[KQRBNP])(?P<square>[a-h][1-8])(?![a-zA-Z])].
    Group 1 is [symbol], group 2 is [square]. *)
Definition SAN_PIECE_PATTERN : regex :=
  seq [ NotBehind letter;
        Grp 1 (Chr (one_of (T "KQRBNP")));
        Grp 2 (Cat (Chr (range "a" "h")) (Chr (range "1" "8")));
        NotAhead letter ].

Definition san_letter_to_name : list (text * text) :=
  [ (T "K", T "king"); (T "Q", T "queen"); (T "R", T "rook");
    (T "B", T "bishop"); (T "N", T "knight"); (T "P", T "pawn") ].

(** A reference: (piece name in lower case, square name). *)
Definition ref : Type := (text * text)%type.

Definition ref_eqb (x y : ref) : bool :=
  text_eqb (fst x) (fst y) && text_eqb (snd x) (snd y).

(** The two accumulators of [extract_piece_refs]. *)
Record acc : Type := mkAcc { results : list ref; seen : list ref }.

(** [if key not in seen: seen.add(key); results.append(key)] *)
Definition note (key : ref) (st : acc) : acc :=
  if existsb (ref_eqb key) (seen st) then st
  else mkAcc (results st ++ [key]) (key :: seen st).

Fixpoint natural_loop (ms : list match_obj) (st : acc) : option acc :=
  match ms with
  | [] => Some st
  | m :: ms' =>
      piece <- group m 1 ;;
      sq <- group m 2 ;;
      natural_loop ms' (note (lower piece, lower sq) st)
  end.

Fixpoint san_loop (ms : list match_obj) (st : acc) : option acc :=
  match ms with
  | [] => Some st
  | m :: ms' =>
      sym <- group m 1 ;;
      sq <- group m 2 ;;
      piece <- dict_get san_letter_to_name sym ;;
      san_loop ms' (note (piece, lower sq) st)
  end.

Definition extract_piece_refs (txt : text) : option (list ref) :=
  st1 <- natural_loop (finditer PIECE_REF_PATTERN txt) (mkAcc [] []) ;;
  st2 <- san_loop (finditer SAN_PIECE_PATTERN txt) st1 ;;
  Some (results st2).


(** *** Format parsing helpers *)

(** [(?i)^[ \t]*REFS\s*[:=]\s*(.* )$] under [re.MULTILINE] *)
Definition REFS_LINE : regex :=
  seq [ Bol; Star (one_of [" "; "009"]%char); LitI (T "refs"); Star isspace;
        Chr (one_of (T ":=")); Star isspace; Grp 1 (Star not_newline); Eol ].

(** [(?i)^[ \t]*COACHING\s*[:=]\s*(.* )] under [re.DOTALL | re.MULTILINE] *)
Definition COACHING_SECTION : regex :=
  seq [ Bol; Star (one_of [" "; "009"]%char); LitI (T "coaching"); Star isspace;
        Chr (one_of (T ":=")); Star isspace; Grp 1 (Star any) ].

Record parsed_refs_coaching : Type := mkParsed {
  pr_refs : text;
  pr_coaching : text;
  pr_ok : bool
}.

Definition group1_stripped (m : option match_obj) : text :=
  match m with
  | Some mo => match group mo 1 with Some w => strip w | None => [] end
  | None => []
  end.

Definition is_some (A : Type) (o : option A) : bool :=
  match o with Some _ => true | None => false end.

Definition parse_refs_coaching (response : text) : parsed_refs_coaching :=
  let refs_match := search REFS_LINE response in
  let coaching_match := search COACHING_SECTION response in
  mkParsed (group1_stripped refs_match) (group1_stripped coaching_match)
           (is_some refs_match && is_some coaching_match).

(** Three backquotes, an optional [json], [\s*\n?], a shortest run of any
    characters as group 1, three backquotes; under [re.DOTALL]. *)
Definition FENCED : regex :=
  seq [ Lit (T "```"); Opt (Lit (T "json")); Star isspace; Opt (Lit ["010"%char]);
        Grp 1 (StarLazy any); Lit (T "```") ].

(** The brace-depth scan of [parse_json_response]: [Some v] when the loop
    returns [v], [None] when it runs to the end of the text. *)
Fixpoint brace_scan (response : text) (i : nat) (rest : text)
  (depth : Z) (start : option nat) : option json :=
  match rest with
  | [] => None
  | ch :: rest' =>
      if chr_eqb ch "{" then
        brace_scan response (S i) rest' (depth + 1)%Z
                   (if (depth =? 0)%Z then Some i else start)
      else if chr_eqb ch "}" then
        let depth' := (depth - 1)%Z in
        match (depth' =? 0)%Z, start with
        | true, Some st =>
            match loads (slice st (i + 1) response) with
            | Some v => Some v
            | None => brace_scan response (S i) rest' depth' None
            end
        | _, _ => brace_scan response (S i) rest' depth' start
        end
      else brace_scan response (S i) rest' depth start
  end.

(** The value returned; [JNull] is Python's [None]. *)
Definition parse_json_response (response : text) : json :=
  let fenced_result :=
    match search FENCED response with
    | Some m =>
        match group m 1 with
        | Some body => loads (strip body)
        | None => None
        end
    | None => None
    end in
  match fenced_result with
  | Some v => v
  | None =>
      match brace_scan response 0 response 0%Z None with
      | Some v => v
      | None =>
          match loads (strip response) with
          | Some v => v
          | None => JNull
          end
      end
  end.

(** *** format_ok *)

(** [</think>\s*] *)
Definition THINK_END : regex := Cat (Lit (T "</think>")) (Star isspace).

(** [(?i)^[ \t]*(?:REFS|COACHING)\s*[:=]] under [re.MULTILINE] *)
Definition LABEL : regex :=
  seq [ Bol; Star (one_of [" "; "009"]%char);
        Alt (LitI (T "refs")) (LitI (T "coaching")); Star isspace;
        Chr (one_of (T ":=")) ].

(** Three backquotes, an optional [json], [\s*\n?\s*], an opening brace, a
    shortest run of any characters, a closing brace, [\s*], three backquotes;
    under [re.DOTALL]. *)
Definition FENCED_OBJECT : regex :=
  seq [ Lit (T "```"); Opt (Lit (T "json")); Star isspace; Opt (Lit ["010"%char]);
        Star isspace; Lit (T "{"); StarLazy any; Lit (T "}"); Star isspace;
        Lit (T "```") ].

(** [^#{1,6}\s+\S] under [re.MULTILINE] *)
Definition MARKDOWN_HEADER : regex :=
  let h := Lit (T "#") in
  seq [ Bol; h; Opt (Cat h (Opt (Cat h (Opt (Cat h (Opt (Cat h (Opt h))))))));
        Plus isspace; Chr (fun c => negb (isspace c)) ].

(** [^\d+[.)]\s], matched at the start of a line *)
Definition NUMBERED : regex :=
  seq [ Plus isdigit; Chr (one_of (T ".)")); Chr isspace ].

(** [^[a-zA-Z_][\w]*\s*:], matched at the start of a line *)
Definition YAML_KEY : regex :=
  seq [ Chr (fun c => letter c || chr_eqb c "_"); Star isword; Star isspace;
        Lit (T ":") ].

Definition nonblank (l : text) : bool :=
  match strip l with [] => false | _ :: _ => true end.

Section Format.

(** Whether [parse_xml_response], which rests on the XML parser of the Python
    library, returns a dictionary for a text. *)
Variable xml_parsed : text -> bool.

(** The response after [response.strip()] and the removal of everything up
    to the first closing think tag and the white space after it, stripped
    again; this is the text the detection rules see. *)
Definition evaluated (response : text) : text :=
  let response := strip response in
  match response with
  | [] => []
  | _ :: _ =>
      match search THINK_END response with
      | Some m => strip (m_rest m)
      | None => response
      end
  end.

Definition is_container (v : json) : bool :=
  match v with JObject _ | JArray _ => true | _ => false end.

(** [None] is the [AttributeError] of [parsed.values()] on a value that is
    not a dictionary. *)
Definition format_ok (response expected_format : text) : option bool :=
  let response := evaluated response in
  match response with
  | [] => Some false
  | _ :: _ =>
      let fmt := strip (lower expected_format) in
      if text_eqb fmt (T "refs_coaching") then
        Some (pr_ok (parse_refs_coaching response))
      else if text_eqb fmt (T "coaching_only") then
        let has_label := is_some (search LABEL response) in
        Some (negb has_label && (0 <? length response))
      else if text_eqb fmt (T "json_flat") || text_eqb fmt (T "json_nested") then
        match parse_json_response response with
        | JNull => Some false
        | parsed =>
            if text_eqb fmt (T "json_nested") then
              match parsed with
              | JObject kvs => Some (existsb (fun kv => is_container (snd kv)) kvs)
              | _ => None
              end
            else Some true
        end
      else if text_eqb fmt (T "single_line_json") then
        match parse_json_response response with
        | JNull => Some false
        | _ =>
            let json_str :=
              match search FENCED response with
              | Some m => match group m 1 with Some b => strip b | None => [] end
              | None => strip response
              end in
            let json_str :=
              match find "{" json_str, rfind "}" json_str with
              | Some st, Some en => slice st (en + 1) json_str
              | _, _ => json_str
              end in
            Some (negb (existsb (chr_eqb "010") json_str))
        end
      else if text_eqb fmt (T "fenced_json") then
        Some (is_some (search FENCED_OBJECT response))
      else if text_eqb fmt (T "xml_tags") || text_eqb fmt (T "xml_cdata") then
        if xml_parsed response then
          if text_eqb fmt (T "xml_cdata")
          then Some (contains (T "<![CDATA[") response)
          else Some true
        else Some false
      else if text_eqb fmt (T "markdown_headers") then
        Some (is_some (search MARKDOWN_HEADER response))
      else if text_eqb fmt (T "numbered_lines") then
        let lines := map strip (filter nonblank (splitlines response)) in
        let numbered := filter (fun l => is_some (match_at NUMBERED [] l)) lines in
        Some (2 <=? length numbered)
      else if text_eqb fmt (T "yaml_format") then
        let lines := filter nonblank (splitlines response) in
        let yaml_lines := filter (fun l => is_some (match_at YAML_KEY [] l)) lines in
        Some (2 <=? length yaml_lines)
      else if text_eqb fmt (T "pipe_delimited") then
        Some (existsb (chr_eqb "|") response && (3 <=? length (split "|" response)))
      else Some false
  end.

End Format.

(** *** Piece validation and hallucination scoring *)

Section Scoring.

(** [chess.Board(fen)] of the chess library; [None] is its [ValueError]. *)
Variable chess_Board : text -> option Board.

Fixpoint all_refs_present (board : Board) (piece_refs : list ref) : bool :=
  match piece_refs with
  | [] => true
  | (piece_name, sq_str) :: rest =>
      match dict_get PIECE_NAMES piece_name with
      | None => false
      | Some piece_type =>
          match parse_square sq_str with
          | None => false
          | Some sq =>
              match piece_at board sq with
              | None => false
              | Some board_piece =>
                  if piece_type_eqb (p_type board_piece) piece_type
                  then all_refs_present board rest
                  else false
              end
          end
      end
  end.

Definition validate_pieces (refs fen : text) : option bool :=
  let refs := lower (strip refs) in
  if match refs with [] => true | _ => false end || text_eqb refs (T "none")
  then Some true
  else
    match chess_Board fen with
    | None => Some false
    | Some board =>
        piece_refs <- extract_piece_refs refs ;;
        match piece_refs with
        | [] => Some true
        | _ => Some (all_refs_present board piece_refs)
        end
    end.

(** One turn of the loop of [hallucination_score]: the new value of [worst]. *)
Definition score_step (board : Board) (worst : nat) (r : ref) : nat :=
  let (piece_name, sq_str) := r in
  match dict_get PIECE_NAMES piece_name with
  | None => worst
  | Some piece_type =>
      match parse_square sq_str with
      | None => worst
      | Some sq =>
          match piece_at board sq with
          | Some board_piece =>
              if piece_type_eqb (p_type board_piece) piece_type then worst
              else Nat.max worst 1
          | None =>
              match pieces board piece_type WHITE ++ pieces board piece_type BLACK with
              | _ :: _ => Nat.max worst 2
              | [] => Nat.max worst 3
              end
          end
      end
  end.

Definition hallucination_score (response fen : text) : option nat :=
  match chess_Board fen with
  | None => Some 0
  | Some board =>
      refs <- extract_piece_refs response ;;
      match refs with
      | [] => Some 0
      | _ => Some (fold_left (score_step board) refs 0)
      end
  end.

End Scoring.

(** *** Simple text checks *)

(** [opening_name.lower() in text.lower()] *)
Definition mentions_opening (txt opening_name : text) : bool :=
  contains (lower opening_name) (lower txt).

(** [^([KQRBN])?x?([a-h][1-8])], matched at the start of the move.  Group 1
    is the piece letter, group 2 the destination. *)
Definition SAN_MOVE : regex :=
  seq [ Bol; Opt (Grp 1 (Chr (one_of (T "KQRBN")))); Opt (Lit (T "x"));
        Grp 2 (Cat (Chr (range "a" "h")) (Chr (range "1" "8"))) ].

Definition san_piece_letter : list (text * text) :=
  [ (T "K", T "king"); (T "Q", T "queen"); (T "R", T "rook");
    (T "B", T "bishop"); (T "N", T "knight") ].

(** The piece word, [\s+(?:to\s+|takes\s+|captures\s+)?] and the escaped
    destination, under [re.IGNORECASE]. *)
Definition spelled_out (piece_word dest : text) : regex :=
  seq [ LitI (lower piece_word); Plus isspace;
        Opt (alts [ Cat (LitI (T "to")) (Plus isspace);
                    Cat (LitI (T "takes")) (Plus isspace);
                    Cat (LitI (T "captures")) (Plus isspace) ]);
        LitI (lower dest) ].

Definition kingside_terms : list text :=
  [ T "o-o"; T "0-0"; T "castles kingside"; T "kingside castle"; T "short castle" ].

Definition queenside_terms : list text :=
  [ T "o-o-o"; T "0-0-0"; T "castles queenside"; T "queenside castle";
    T "long castle" ].

(** The escaped move is a literal, searched under [re.IGNORECASE]; the two
    dashes that [replace] turns into a hyphen lie outside the characters
    modelled. *)
Definition mentions_move (txt move_san : text) : option bool :=
  match move_san with
  | [] => Some false
  | _ :: _ =>
      if contains move_san txt then Some true
      else if is_some (search (LitI (lower move_san)) txt) then Some true
      else
        let san_lower := lower move_san in
        let text_lower := lower txt in
        if (text_eqb san_lower (T "o-o") || text_eqb san_lower (T "0-0"))
           && existsb (fun term => contains term text_lower) kingside_terms
        then Some true
        else if (text_eqb san_lower (T "o-o-o") || text_eqb san_lower (T "0-0-0"))
                && existsb (fun term => contains term text_lower) queenside_terms
        then Some true
        else
          match match_at SAN_MOVE [] move_san with
          | Some m =>
              dest <- group m 2 ;;
              match group m 1 with
              | Some ((_ :: _) as piece_letter) =>
                  piece_word <- dict_get san_piece_letter piece_letter ;;
                  Some (is_some (search (spelled_out piece_word dest) txt))
              | _ => Some (is_some (search (spelled_out (T "pawn") dest) txt))
              end
          | None => Some false
          end
  end.

(** [len(text.split())] *)
Definition word_count (txt : text) : nat := length (split_ws txt).

(** *** Board summary *)

(** The inverse of [PIECE_NAMES]. *)
Definition PIECE_TYPE_TO_NAME (pt : piece_type) : text :=
  match pt with
  | KING => T "king" | QUEEN => T "queen" | ROOK => T "rook"
  | BISHOP => T "bishop" | KNIGHT => T "knight" | PAWN => T "pawn"
  end.

Definition piece_order : list piece_type :=
  [ KING; QUEEN; ROOK; BISHOP; KNIGHT; PAWN ].

(** The sort key [(chess.square_file(s), chess.square_rank(s))]. *)
Definition file_rank_leb (s t : Square) : bool :=
  (square_file s <? square_file t)
  || ((square_file s =? square_file t) && (square_rank s <=? square_rank t)).

(** The segments of one colour: the loop over [piece_order]. *)
Fixpoint segments_of (board : Board) (c : color) (pts : list piece_type)
  : list text :=
  match pts with
  | [] => []
  | pt :: pts' =>
      let squares := sorted file_rank_leb (pieces board pt c) in
      match squares with
      | [] => segments_of board c pts'
      | _ :: _ =>
          let name := capitalize (PIECE_TYPE_TO_NAME pt) in
          let sq_names := map square_name squares in
          (if piece_type_eqb pt PAWN
           then [T "Pawns " ++ join (T " ") sq_names]
           else map (fun sn => name ++ T " " ++ sn) sq_names)
          ++ segments_of board c pts'
      end
  end.

Definition summary_line (board : Board) (side : color * text) : text :=
  snd side ++ T ": " ++ join (T ", ") (segments_of board (fst side) piece_order).

Section Summary.

Variable chess_Board : text -> option Board.

Definition board_summary (fen : text) : text :=
  match chess_Board fen with
  | None => T "Invalid FEN: " ++ fen
  | Some board =>
      join ["010"%char]
           (map (summary_line board) [ (WHITE, T "White"); (BLACK, T "Black") ])
  end.

End Summary.

End Evaluator.
Import Evaluator.

(** ** [Scripts/benchmark/bench_m4.py] *)

Module BenchM4.

(** [\b([a-h][1-8])\b] *)
Definition SQUARE_RE : regex :=
  seq [ WordB; Grp 1 (Cat (Chr (range "a" "h")) (Chr (range "1" "8"))); WordB ].

Definition PIECE_MAP : list (text * text) :=
  [ (T "king", T "k"); (T "queen", T "q"); (T "rook", T "r");
    (T "bishop", T "b"); (T "knight", T "n"); (T "pawn", T "p") ].

(** [PIECE_MAP.get(tokens[0]) if tokens else None] *)
Definition kind_of (trimmed : text) : option text :=
  match first_token trimmed with
  | Some tok => dict_get PIECE_MAP tok
  | None => None
  end.

Fixpoint parse_parts (parts : list text) : list (text * option text) :=
  match parts with
  | [] => []
  | part :: parts' =>
      let trimmed := lower (strip part) in
      let kind := kind_of trimmed in
      match search SQUARE_RE trimmed with
      | Some m =>
          match group m 1 with
          | Some sq => (sq, kind) :: parse_parts parts'
          | None => parse_parts parts'
          end
      | None => parse_parts parts'
      end
  end.

(** The list of (square, piece kind or [None]). *)
Definition parse_refs (s : text) : list (text * option text) :=
  if match s with [] => true | _ => false end || text_eqb (lower (strip s)) (T "none")
  then []
  else parse_parts (split "," s).



Section Board.

Variable chess_Board : text -> option Board.


End Board.


(** [:\s*(True|False)\b] *)
Definition BOOL_LITERAL : regex :=
  seq [ Lit (T ":"); Star isspace; Grp 1 (Alt (Lit (T "True")) (Lit (T "False")));
        WordB ].

(** [:\s*(positive|negative|neutral)\b] *)
Definition ENUM_WORD : regex :=
  seq [ Lit (T ":"); Star isspace;
        Grp 1 (alts [ Lit (T "positive"); Lit (T "negative"); Lit (T "neutral") ]);
        WordB ].


Definition group1 (m : match_obj) : text :=
  match group m 1 with Some w => w | None => [] end.

(** [while txt.endswith('}}}'): txt = txt[:-1]], on the reversed text. *)
Fixpoint drop_braces_rev (r : text) : text :=
  match r with
  | c1 :: r1 =>
      match r1 with
      | c2 :: c3 :: _ =>
          if chr_eqb c1 "}" && chr_eqb c2 "}" && chr_eqb c3 "}"
          then drop_braces_rev r1
          else r
      | _ => r
      end
  | [] => r
  end.

Definition drop_braces (txt : text) : text := rev (drop_braces_rev (rev txt)).

(** The two substitutions that follow the loop. *)
Definition fix_literals (txt : text) : text :=
  let txt := sub BOOL_LITERAL (fun m => T ": " ++ lower (group1 m)) txt in
  sub ENUM_WORD (fun m => Tq ": '" ++ group1 m ++ Tq "'") txt.



(** *** Parsing of the REFS/COACHING response *)

(** (coaching, refs, raw_refs), the three variables of the loop. *)
Record refs_coaching : Type := mkRefsCoaching {
  rc_coaching : text;
  rc_refs : list (text * option text);
  rc_raw_refs : text
}.

(** [t.upper().startswith(label)] *)
Definition upper_startswith (label t : text) : bool :=
  startswith_points (points label) (upper t).

Fixpoint lines_loop (lines : list text) (st : refs_coaching) : refs_coaching :=
  match lines with
  | [] => st
  | line :: rest =>
      let t := strip line in
      if upper_startswith (T "REFS:") t then
        let raw_refs := strip (skipn 5 t) in
        lines_loop rest (mkRefsCoaching (rc_coaching st) (parse_refs raw_refs) raw_refs)
      else if upper_startswith (T "COACHING:") t then
        lines_loop rest
          (mkRefsCoaching (strip (skipn 9 t)) (rc_refs st) (rc_raw_refs st))
      else lines_loop rest st
  end.

(** The triple (coaching_text, refs_list, raw_refs). *)
Definition parse_refs_coaching (response : text)
  : text * list (text * option text) * text :=
  let lines := split "010" (strip response) in
  let st := lines_loop lines (mkRefsCoaching response [] []) in
  let coaching :=
    if negb (contains_points (points (T "COACHING:")) (upper response))
    then strip (join (T " ")
                  (filter (fun l => negb (upper_startswith (T "REFS:") (strip l)))
                          lines))
    else rc_coaching st in
  (coaching, rc_refs st, rc_raw_refs st).

Section Occupied.

Variable chess_Board : text -> option Board.

(** The names of the occupied squares, sorted, joined by a comma and a
    blank. *)
Definition get_occupied_squares (fen : text) : option text :=
  board <- chess_Board fen ;;
  let squares :=
    map square_name (filter (fun sq => is_some (piece_at board sq)) SQUARES) in
  Some (join (T ", ") (sorted text_leb squares)).

End Occupied.

End BenchM4.

(** ** [Scripts/experiments/bench_shallow_fix.py] *)

Module BenchShallowFix.

(** [(?i)^REFS:\s*(.+)] and [(?i)^COACHING:\s*(.+)] under [re.MULTILINE] *)
Definition REFS_RE : regex :=
  seq [ Bol; LitI (T "refs:"); Star isspace; Grp 1 (Plus not_newline) ].

Definition COACHING_RE : regex :=
  seq [ Bol; LitI (T "coaching:"); Star isspace; Grp 1 (Plus not_newline) ].

(** [([a-h][1-8])] *)
Definition SQUARE_TOKEN : regex :=
  Grp 1 (Cat (Chr (range "a" "h")) (Chr (range "1" "8"))).

(** The loop over [raw_refs]. *)
Fixpoint validate_loop (board : Board) (raw_refs : list text)
  (validated : list text) (rejected : nat) : option (list text * nat) :=
  match raw_refs with
  | [] => Some (validated, rejected)
  | ref :: rest =>
      match search SQUARE_TOKEN ref with
      | Some sq_match =>
          name <- group sq_match 1 ;;
          sq <- parse_square name ;;
          match piece_at board sq with
          | Some _ => validate_loop board rest (validated ++ [ref]) rejected
          | None => validate_loop board rest validated (rejected + 1)
          end
      | None => validate_loop board rest (validated ++ [ref]) rejected
      end
  end.

(** From the text of the REFS line to the cleaned refs and the number of
    rejected fragments: the split, the loop, the fallback and the join. *)
Definition clean_refs (board : Board) (refs_text : text) : option (text * nat) :=
  let raw_refs := map strip (split "," refs_text) in
  match validate_loop board raw_refs [] 0 with
  | Some (validated, rejected) =>
      let validated :=
        match validated with
        | [] => [T "current position"]
        | _ => validated
        end in
      Some (join (T ", ") validated, rejected)
  | None => None
  end.

Section Board.

Variable chess_Board : text -> option Board.

Definition post_validate_refs (txt fen : text) : option (text * nat) :=
  board <- chess_Board fen ;;
  match search REFS_RE txt, search COACHING_RE txt with
  | Some refs_match, Some coaching_match =>
      refs_text <- group refs_match 1 ;;
      coaching <- group coaching_match 1 ;;
      match clean_refs board refs_text with
      | Some (refs, rejected) =>
          Some (T "REFS: " ++ refs ++ ["010"%char] ++ T "COACHING: " ++ coaching,
                rejected)
      | None => None
      end
  | _, _ => Some (txt, 0)
  end.

End Board.

(** *** The accuracy check *)

(** [text[m.end():].strip() if m else text.strip()] for the first match of
    [</think>\s*]. *)
Definition strip_thinking (txt : text) : text :=
  match search THINK_END txt with
  | Some m => strip (m_rest m)
  | None => strip txt
  end.

(** [\b([a-h][1-8])\b] *)
Definition SQUARE_WORD : regex :=
  seq [ WordB; Grp 1 (Cat (Chr (range "a" "h")) (Chr (range "1" "8"))); WordB ].

(** [(knight|bishop|rook|queen|king|pawn)\s+(?:on\s+)?([a-h][1-8])] under
    [re.IGNORECASE] *)
Definition PIECE_SQUARE : regex :=
  seq [ Grp 1 (alts [ LitI (T "knight"); LitI (T "bishop"); LitI (T "rook");
                      LitI (T "queen"); LitI (T "king"); LitI (T "pawn") ]);
        Plus isspace; Opt (Cat (LitI (T "on")) (Plus isspace));
        Grp 2 (Cat (Chr (range_i "a" "h")) (Chr (range "1" "8"))) ].

(** (valid, total, errors, good) *)
Record accuracy : Type := mkAccuracy {
  a_valid : nat;
  a_total : nat;
  a_errors : list text;
  a_good : list text
}.

Fixpoint squares_loop (board : Board) (square_refs : list text) (st : accuracy)
  : option accuracy :=
  match square_refs with
  | [] => Some st
  | sq_name :: rest =>
      sq <- parse_square sq_name ;;
      match piece_at board sq with
      | Some _ =>
          squares_loop board rest
            (mkAccuracy (a_valid st + 1) (a_total st + 1) (a_errors st)
                        (a_good st ++ [sq_name]))
      | None =>
          squares_loop board rest
            (mkAccuracy (a_valid st) (a_total st + 1) (a_errors st ++ [sq_name])
                        (a_good st))
      end
  end.

Definition expected_types : list (text * piece_type) :=
  [ (T "pawn", PAWN); (T "knight", KNIGHT); (T "bishop", BISHOP);
    (T "rook", ROOK); (T "queen", QUEEN); (T "king", KING) ].

(** [piece.piece_type == expected_type], where [expected_type] may be
    [None]. *)
Definition is_type (piece : Piece) (expected_type : option piece_type) : bool :=
  match expected_type with
  | Some et => piece_type_eqb (p_type piece) et
  | None => false
  end.

Fixpoint pieces_loop (board : Board) (piece_sq_refs : list (text * text))
  (st : accuracy) : option accuracy :=
  match piece_sq_refs with
  | [] => Some st
  | (piece_name_str, sq_name) :: rest =>
      sq <- parse_square sq_name ;;
      match piece_at board sq with
      | Some piece =>
          if is_type piece (dict_get expected_types (lower piece_name_str))
          then pieces_loop board rest
                 (mkAccuracy (a_valid st + 1) (a_total st + 1) (a_errors st)
                             (a_good st ++ [piece_name_str ++ T " " ++ sq_name]))
          else pieces_loop board rest
                 (mkAccuracy (a_valid st) (a_total st + 1)
                             (a_errors st ++ [sq_name ++ T "(wrong piece)"])
                             (a_good st))
      | None =>
          pieces_loop board rest
            (mkAccuracy (a_valid st) (a_total st + 1)
                        (a_errors st ++ [sq_name ++ T "(empty)"]) (a_good st))
      end
  end.

Section Accuracy.

Variable chess_Board : text -> option Board.

Definition check_accuracy (txt fen : text) : option accuracy :=
  let txt := strip_thinking txt in
  board <- chess_Board fen ;;
  match search REFS_RE txt with
  | None => Some (mkAccuracy 0 0 [] [])
  | Some refs_match =>
      refs_text <- group refs_match 1 ;;
      let square_refs := findall SQUARE_WORD refs_text in
      let piece_sq_refs := findall2 PIECE_SQUARE refs_text in
      st <- squares_loop board square_refs (mkAccuracy 0 0 [] []) ;;
      pieces_loop board piece_sq_refs st
  end.

End Accuracy.

End BenchShallowFix.

(** ** [Scripts/experiments/bench_final_accuracy.py] *)

Module BenchFinalAccuracy.

(** [([a-h][1-8])] *)
Definition SQUARE_TOKEN : regex :=
  Grp 1 (Cat (Chr (range "a" "h")) (Chr (range "1" "8"))).

Fixpoint filter_loop (board : Board) (raw_parts : list text)
  (cleaned_parts : list text) (removed : nat) : option (list text * nat) :=
  match raw_parts with
  | [] => Some (cleaned_parts, removed)
  | part :: rest =>
      match search SQUARE_TOKEN part with
      | Some sq_match =>
          name <- group sq_match 1 ;;
          sq <- parse_square name ;;
          match piece_at board sq with
          | Some _ => filter_loop board rest (cleaned_parts ++ [part]) removed
          | None => filter_loop board rest cleaned_parts (removed + 1)
          end
      | None => filter_loop board rest (cleaned_parts ++ [part]) removed
      end
  end.

Section Board.

Variable chess_Board : text -> option Board.

(** (cleaned_parts, removed, all_removed); the arguments [ref_squares] and
    [coaching] are not used by the function. *)
Definition post_validate_response (ref_squares : list text)
  (refs_raw coaching fen : text) : option (list text * nat * bool) :=
  board <- chess_Board fen ;;
  let raw_parts := map strip (split "," refs_raw) in
  match filter_loop board raw_parts [] 0 with
  | Some (cleaned_parts, removed) =>
      Some (cleaned_parts, removed,
            (length cleaned_parts =? 0) && (0 <? removed))
  | None => None
  end.

End Board.

(** *** The helpers of the measurement loop *)

Definition strip_think (t : text) : text :=
  match search THINK_END t with
  | Some m => strip (m_rest m)
  | None => strip t
  end.

(** [(?i)^REFS:\s*(.+)] and [(?i)^COACHING:\s*(.+)] under [re.MULTILINE];
    [\b([a-h][1-8])\b] *)
Definition REFS_RE : regex :=
  seq [ Bol; LitI (T "refs:"); Star isspace; Grp 1 (Plus not_newline) ].

Definition COACHING_RE : regex :=
  seq [ Bol; LitI (T "coaching:"); Star isspace; Grp 1 (Plus not_newline) ].

Definition SQUARE_WORD : regex :=
  seq [ WordB; Grp 1 (Cat (Chr (range "a" "h")) (Chr (range "1" "8"))); WordB ].

(** (ref_squares, refs_raw, coaching, text) *)
Definition extract_refs_and_coaching (txt : text)
  : list text * text * text * text :=
  let txt := strip_think txt in
  let refs_raw := group1_stripped (search REFS_RE txt) in
  let coaching := group1_stripped (search COACHING_RE txt) in
  (findall SQUARE_WORD refs_raw, refs_raw, coaching, txt).

(** The loop of [validate_squares] and of [coaching_square_refs]. *)
Fixpoint squares_loop (board : Board) (squares : list text)
  (valid invalid : list text) : option (list text * list text) :=
  match squares with
  | [] => Some (valid, invalid)
  | sq_name :: rest =>
      sq <- parse_square sq_name ;;
      match piece_at board sq with
      | Some _ => squares_loop board rest (valid ++ [sq_name]) invalid
      | None => squares_loop board rest valid (invalid ++ [sq_name])
      end
  end.

Section Squares.

Variable chess_Board : text -> option Board.

(** (valid, invalid) *)
Definition validate_squares (squares : list text) (fen : text)
  : option (list text * list text) :=
  board <- chess_Board fen ;;
  squares_loop board squares [] [].

Definition coaching_square_refs (coaching_text fen : text)
  : option (list text * list text) :=
  board <- chess_Board fen ;;
  squares_loop board (findall SQUARE_WORD coaching_text) [] [].

End Squares.

End BenchFinalAccuracy.

(** * Properties *)

Unset Implicit Arguments.

(** ** The matcher against a declarative reading of the patterns *)

Module ReFacts.

(** [Matches r l w a g g']: with the reversed text [l] to its left and the
    text [a] to its right, the pattern [r] matches the text [w], taking the
    groups from [g] to [g']. *)
Inductive Matches : regex -> text -> text -> text -> captures -> captures -> Prop :=
| M_Eps l a g : Matches Eps l [] a g g
| M_Chr p c l a g : p c = true -> Matches (Chr p) l [c] a g g
| M_Lit s w l a g : lit_ok false s w = true -> Matches (Lit s) l w a g g
| M_LitI s w l a g : lit_ok true s w = true -> Matches (LitI s) l w a g g
| M_Cat r1 r2 l w1 w2 a g g1 g2 :
    Matches r1 l w1 (w2 ++ a) g g1 ->
    Matches r2 (rev w1 ++ l) w2 a g1 g2 ->
    Matches (Cat r1 r2) l (w1 ++ w2) a g g2
| M_AltL r1 r2 l w a g g' : Matches r1 l w a g g' -> Matches (Alt r1 r2) l w a g g'
| M_AltR r1 r2 l w a g g' : Matches r2 l w a g g' -> Matches (Alt r1 r2) l w a g g'
| M_OptYes r l w a g g' : Matches r l w a g g' -> Matches (Opt r) l w a g g'
| M_OptNo r l a g : Matches (Opt r) l [] a g g
| M_Star p w l a g : forallb p w = true -> Matches (Star p) l w a g g
| M_Plus p c w l a g :
    p c = true -> forallb p w = true -> Matches (Plus p) l (c :: w) a g g
| M_StarLazy p w l a g : forallb p w = true -> Matches (StarLazy p) l w a g g
| M_Grp n r l w a g g' :
    Matches r l w a g g' -> Matches (Grp n r) l w a g (set_group n w g')
| M_Bol l a g : at_bol l = true -> Matches Bol l [] a g g
| M_Eol l a g : at_eol a = true -> Matches Eol l [] a g g
| M_WordB l a g : at_wordb l a = true -> Matches WordB l [] a g g
| M_NotBehind p l a g : head_is p l = false -> Matches (NotBehind p) l [] a g g
| M_NotAhead p l a g : head_is p a = false -> Matches (NotAhead p) l [] a g g.

#[local] Hint Constructors Matches : core.

Lemma captured_app (l w : text) : captured l (rev w ++ l) = w.
Proof.
  unfold captured. rewrite length_app, length_rev.
  replace (length w + length l - length l) with (length (rev w)) by (rewrite length_rev; lia).
  rewrite firstn_app, Nat.sub_diag, firstn_all. simpl.
  rewrite app_nil_r. apply rev_involutive.
Qed.

Lemma orelse_some_l (R : Type) (x y : option R) : x <> None -> orelse x y <> None.
Proof. destruct x; simpl; congruence. Qed.

Lemma orelse_some_r (R : Type) (x y : option R) : y <> None -> orelse x y <> None.
Proof. destruct x; simpl; congruence. Qed.

Lemma orelse_inv (R : Type) (x y : option R) (v : R) :
  orelse x y = Some v -> x = Some v \/ y = Some v.
Proof. destruct x; simpl; auto. Qed.

Section Runs.

Variable R : Type.
Implicit Types (k : cont R) (l a w : text) (g : captures).

Lemma run_lit_sound ci s : forall l a g k x,
  run_lit ci s l a g k = Some x ->
  exists w a', a = w ++ a' /\ lit_ok ci s w = true /\ k (rev w ++ l) a' g = Some x.
Proof.
  induction s as [|c s IH]; intros l a g k x H; simpl in H.
  - exists [], a. auto.
  - destruct a as [|d a]; [discriminate|].
    destruct (chr_eqb (if ci then lower_chr d else d) c) eqn:E; [|discriminate].
    apply IH in H. destruct H as (w & a' & -> & Hw & Hk).
    exists (d :: w), a'. simpl. rewrite E, Hw. repeat split.
    now rewrite <- app_assoc.
Qed.

Lemma run_lit_complete ci s : forall w l a g k,
  lit_ok ci s w = true -> run_lit ci s l (w ++ a) g k = k (rev w ++ l) a g.
Proof.
  induction s as [|c s IH]; intros [|d w] l a g k H; simpl in *; try discriminate; auto.
  apply andb_prop in H. destruct H as [H1 H2]. rewrite H1.
  rewrite IH by assumption. now rewrite <- app_assoc.
Qed.

Lemma run_star_sound p : forall a l g k x,
  run_star p l a g k = Some x ->
  exists w a', a = w ++ a' /\ forallb p w = true /\ k (rev w ++ l) a' g = Some x.
Proof.
  induction a as [|c a IH]; intros l g k x H; simpl in H.
  - exists [], []. auto.
  - destruct (p c) eqn:E.
    + apply orelse_inv in H. destruct H as [H|H].
      * apply IH in H. destruct H as (w & a' & -> & Hw & Hk).
        exists (c :: w), a'. simpl. rewrite E, Hw. repeat split.
        now rewrite <- app_assoc.
      * exists [], (c :: a). auto.
    + exists [], (c :: a). auto.
Qed.

Lemma run_star_base p l a g k : k l a g <> None -> run_star p l a g k <> None.
Proof.
  destruct a as [|c a]; simpl; auto.
  destruct (p c); auto. apply orelse_some_r.
Qed.

Lemma run_star_complete p : forall w l a g k,
  forallb p w = true -> k (rev w ++ l) a g <> None ->
  run_star p l (w ++ a) g k <> None.
Proof.
  induction w as [|c w IH]; intros l a g k Hw Hk; simpl in *.
  - now apply run_star_base.
  - apply andb_prop in Hw. destruct Hw as [Hc Hw]. rewrite Hc.
    apply orelse_some_l. apply IH; auto. now rewrite <- app_assoc in Hk.
Qed.

Lemma run_star_lazy_sound p : forall a l g k x,
  run_star_lazy p l a g k = Some x ->
  exists w a', a = w ++ a' /\ forallb p w = true /\ k (rev w ++ l) a' g = Some x.
Proof.
  induction a as [|c a IH]; intros l g k x H; simpl in H.
  - destruct (k l [] g) eqn:E; [|discriminate]. inversion H; subst.
    exists [], []. auto.
  - destruct (k l (c :: a) g) eqn:E.
    + inversion H; subst. exists [], (c :: a). auto.
    + destruct (p c) eqn:Ec; [|discriminate].
      apply IH in H. destruct H as (w & a' & -> & Hw & Hk).
      exists (c :: w), a'. simpl. rewrite Ec, Hw. repeat split.
      now rewrite <- app_assoc.
Qed.

Lemma run_star_lazy_complete p : forall w l a g k,
  forallb p w = true -> k (rev w ++ l) a g <> None ->
  run_star_lazy p l (w ++ a) g k <> None.
Proof.
  induction w as [|c w IH]; intros l a g k Hw Hk; simpl in *.
  - destruct a; simpl; destruct (k l _ g); congruence.
  - apply andb_prop in Hw. destruct Hw as [Hc Hw]. rewrite Hc.
    destruct (k l (c :: w ++ a) g); [congruence|].
    apply IH; auto. now rewrite <- app_assoc in Hk.
Qed.

(** Soundness: a result of the matcher comes from a match of the pattern,
    handed to the continuation. *)
Lemma run_sound r : forall l a g k x,
  run r l a g k = Some x ->
  exists w a' g',
    a = w ++ a' /\ Matches r l w a' g g' /\ k (rev w ++ l) a' g' = Some x.
Proof.
  induction r; intros l a g k x H; simpl in H.
  - exists [], a, g. auto.
  - destruct a as [|c a]; [discriminate|]. destruct (p c) eqn:E; [|discriminate].
    exists [c], a, g. auto.
  - apply run_lit_sound in H. destruct H as (w & a' & -> & Hw & Hk).
    exists w, a', g. auto.
  - apply run_lit_sound in H. destruct H as (w & a' & -> & Hw & Hk).
    exists w, a', g. auto.
  - apply IHr1 in H. destruct H as (w1 & a1 & g1 & -> & M1 & H).
    apply IHr2 in H. destruct H as (w2 & a2 & g2 & -> & M2 & H).
    exists (w1 ++ w2), a2, g2. repeat split.
    + now rewrite app_assoc.
    + eauto.
    + now rewrite rev_app_distr, <- app_assoc.
  - apply orelse_inv in H. destruct H as [H|H].
    + apply IHr1 in H. destruct H as (w & a' & g' & -> & M & H). eauto 8.
    + apply IHr2 in H. destruct H as (w & a' & g' & -> & M & H). eauto 8.
  - apply orelse_inv in H. destruct H as [H|H].
    + apply IHr in H. destruct H as (w & a' & g' & -> & M & H). eauto 8.
    + exists [], a, g. auto.
  - apply run_star_sound in H. destruct H as (w & a' & -> & Hw & Hk).
    exists w, a', g. auto.
  - destruct a as [|c a]; [discriminate|]. destruct (p c) eqn:E; [|discriminate].
    apply run_star_sound in H. destruct H as (w & a' & -> & Hw & Hk).
    exists (c :: w), a', g. repeat split; auto.
    simpl. now rewrite <- app_assoc.
  - apply run_star_lazy_sound in H. destruct H as (w & a' & -> & Hw & Hk).
    exists w, a', g. auto.
  - apply IHr in H. destruct H as (w & a' & g' & -> & M & H).
    rewrite captured_app in H. eauto 8.
  - destruct (at_bol l) eqn:E; [|discriminate]. exists [], a, g. auto.
  - destruct (at_eol a) eqn:E; [|discriminate]. exists [], a, g. auto.
  - destruct (at_wordb l a) eqn:E; [|discriminate]. exists [], a, g. auto.
  - destruct (head_is p l) eqn:E; [discriminate|]. exists [], a, g. auto.
  - destruct (head_is p a) eqn:E; [discriminate|]. exists [], a, g. auto.
Qed.

(** Completeness: where the pattern has a match that the continuation
    accepts, the matcher finds a result. *)
Lemma run_complete r l w a g g' :
  Matches r l w a g g' ->
  forall k, k (rev w ++ l) a g' <> None -> run r l (w ++ a) g k <> None.
Proof.
  induction 1; intros k Hk; simpl in *; auto.
  - now rewrite H.
  - now rewrite run_lit_complete.
  - now rewrite run_lit_complete.
  - rewrite <- app_assoc. apply IHMatches1. apply IHMatches2.
    now rewrite rev_app_distr, <- app_assoc in Hk.
  - apply orelse_some_l. auto.
  - apply orelse_some_r. auto.
  - apply orelse_some_l. auto.
  - apply orelse_some_r. auto.
  - now apply run_star_complete.
  - rewrite H. apply run_star_complete; auto. now rewrite <- app_assoc in Hk.
  - now apply run_star_lazy_complete.
  - apply IHMatches. now rewrite captured_app.
  - now rewrite H.
  - now rewrite H.
  - now rewrite H.
  - now rewrite H.
  - now rewrite H.
Qed.

End Runs.

(** A match object as the search returns it: where it starts, what it
    covers, and that the pattern matches there. *)
Definition found (r : regex) (l a : text) (m : match_obj) : Prop :=
  exists pre w,
    a = pre ++ w ++ m_rest m /\
    m_before m = rev pre ++ l /\
    m_upto m = rev w ++ m_before m /\
    Matches r (m_before m) w (m_rest m) no_groups (m_groups m).

Lemma match_at_sound r l a m :
  match_at r l a = Some m ->
  exists w, a = w ++ m_rest m /\ m_before m = l /\ m_upto m = rev w ++ l /\
            Matches r l w (m_rest m) no_groups (m_groups m).
Proof.
  unfold match_at. intros H. apply run_sound in H.
  destruct H as (w & a' & g' & -> & M & H). inversion H; subst; clear H. simpl.
  exists w. auto.
Qed.

Lemma search_from_sound r : forall a l m,
  search_from r l a = Some m -> found r l a m.
Proof.
  assert (Here : forall l a m, match_at r l a = Some m -> found r l a m).
  { intros l a m E. apply match_at_sound in E. destruct E as (w & E1 & E2 & E3 & M).
    exists [], w. simpl. rewrite E2. repeat split; auto. }
  induction a as [|c a IH]; intros l m H; simpl in H.
  - destruct (match_at r l []) eqn:E; [|discriminate]. inversion H; subst; auto.
  - destruct (match_at r l (c :: a)) eqn:E.
    + inversion H; subst; auto.
    + apply IH in H. destruct H as (pre & w & E1 & E2 & E3 & M).
      exists (c :: pre), w. repeat split; auto.
      * simpl. now rewrite E1.
      * simpl. now rewrite <- app_assoc.
Qed.

Lemma search_from_complete r : forall pre l w post g',
  Matches r (rev pre ++ l) w post no_groups g' ->
  search_from r l (pre ++ w ++ post) <> None.
Proof.
  induction pre as [|c pre IH]; intros l w post g' M; simpl in *.
  - assert (E : match_at r l (w ++ post) <> None).
    { unfold match_at. eapply run_complete; eauto. discriminate. }
    destruct (w ++ post); simpl; destruct (match_at r l _); congruence.
  - destruct (match_at r l (c :: pre ++ w ++ post)); [discriminate|].
    eapply IH. rewrite <- app_assoc in M. exact M.
Qed.

Lemma search_sound r s m : search r s = Some m -> found r [] s m.
Proof. apply search_from_sound. Qed.

Lemma search_complete r pre w post g' :
  Matches r (rev pre) w post no_groups g' -> search r (pre ++ w ++ post) <> None.
Proof.
  intros M. apply search_from_complete with (g' := g'). now rewrite app_nil_r.
Qed.

(** Every match of [finditer] is a match of the pattern in the text. *)
Lemma finditer_from_sound r : forall fuel l a m,
  In m (finditer_from fuel r l a) -> exists l' a', found r l' a' m.
Proof.
  induction fuel as [|fuel IH]; intros l a m H; simpl in H; [contradiction|].
  destruct (search_from r l a) as [m0|] eqn:E; [|contradiction].
  destruct H as [<-|H].
  - apply search_from_sound in E. eauto.
  - destruct (m_end m0 =? m_start m0).
    + destruct (m_rest m0); [contradiction|]. eauto.
    + eauto.
Qed.

Lemma finditer_sound r s m : In m (finditer r s) -> exists l' a', found r l' a' m.
Proof. apply finditer_from_sound. Qed.

End ReFacts.

(** ** Extraction of references *)

Module ExtractFacts.
Import ReFacts.

Ltac inv H := inversion H; subst; clear H.

Lemma chr_eqb_eq (a b : ascii) : chr_eqb a b = true -> a = b.
Proof. apply Ascii.eqb_eq. Qed.

Lemma text_eqb_eq : forall s t, text_eqb s t = true <-> s = t.
Proof.
  induction s as [|a s IH]; intros [|b t]; simpl; split; try congruence.
  - intros H. apply andb_prop in H. destruct H as [H1 H2].
    apply chr_eqb_eq in H1. apply IH in H2. congruence.
  - intros H. inv H. apply andb_true_intro. split.
    + apply Ascii.eqb_refl.
    + now apply IH.
Qed.

Lemma text_eqb_refl s : text_eqb s s = true.
Proof. now apply text_eqb_eq. Qed.

(** A literal matched without regard to case is, in lower case, the literal. *)
Lemma lit_ok_ci_lower : forall s w, lit_ok true s w = true -> lower w = s.
Proof.
  induction s as [|x s IH]; intros [|c w] H; simpl in *; try discriminate; auto.
  apply andb_prop in H. destruct H as [H1 H2].
  apply chr_eqb_eq in H1. apply IH in H2. unfold lower in *. simpl. congruence.
Qed.

Lemma lit_ok_cs_eq : forall s w, lit_ok false s w = true -> w = s.
Proof.
  induction s as [|x s IH]; intros [|c w] H; simpl in *; try discriminate; auto.
  apply andb_prop in H. destruct H as [H1 H2].
  apply chr_eqb_eq in H1. apply IH in H2. congruence.
Qed.

(** Patterns without groups leave the groups as they are. *)
Fixpoint groupless (r : regex) : bool :=
  match r with
  | Grp _ _ => false
  | Cat r1 r2 | Alt r1 r2 => groupless r1 && groupless r2
  | Opt r1 => groupless r1
  | _ => true
  end.

Lemma groupless_keeps r l w a g g' :
  Matches r l w a g g' -> groupless r = true -> g' = g.
Proof.
  induction 1; simpl; intros G; auto; try discriminate.
  - apply andb_prop in G. destruct G. rewrite IHMatches2, IHMatches1; auto.
  - apply andb_prop in G. destruct G. auto.
  - apply andb_prop in G. destruct G. auto.
Qed.

(** What the natural-language grammar leaves in its groups. *)
Definition piece_words : list text :=
  [ T "king"; T "queen"; T "rook"; T "bishop"; T "knight"; T "pawn" ].

Lemma piece_word_groups l w a g g' :
  Matches PIECE_WORD l w a g g' ->
  g' = set_group 1 w g /\ In (lower w) piece_words.
Proof.
  unfold PIECE_WORD. cbn [alts]. intros M. inv M. split.
  - f_equal.
    repeat match goal with
           | H : Matches (Alt _ _) _ _ _ _ _ |- _ => inv H
           | H : Matches (LitI _) _ _ _ _ _ |- _ => inv H
           end; reflexivity.
  - unfold piece_words.
    repeat match goal with
           | H : Matches (Alt _ _) _ _ _ _ _ |- _ => inv H
           | H : Matches (LitI _) _ _ _ _ _ |- _ => inv H
           | H : lit_ok true _ _ = true |- _ => apply lit_ok_ci_lower in H; rewrite H
           end; simpl; auto 10.
Qed.

Lemma square_groups n p l w a g g' :
  Matches (Grp n (Cat (Chr p) (Chr (range "1" "8")))) l w a g g' ->
  exists f r, w = [f; r] /\ p f = true /\ between 49 56 r = true /\
              g' = set_group n [f; r] g.
Proof.
  intros M. inv M.
  match goal with H : Matches (Cat _ _) _ _ _ _ _ |- _ => inv H end.
  repeat match goal with H : Matches (Chr _) _ _ _ _ _ |- _ => inv H end.
  eexists _, _. repeat split; eauto.
Qed.

Lemma natural_groups l w a g :
  Matches PIECE_REF_PATTERN l w a no_groups g ->
  exists wp f r,
    g 1 = Some wp /\ g 2 = Some [f; r] /\ In (lower wp) piece_words /\
    range_i "a" "h" f = true /\ between 49 56 r = true.
Proof.
  unfold PIECE_REF_PATTERN. cbn [seq]. intros M.
  inv M. match goal with H : Matches COLOR_PREFIX _ _ _ _ _ |- _ =>
    apply groupless_keeps in H; [subst|reflexivity] end.
  match goal with H : Matches (Cat ARTICLE _) _ _ _ _ _ |- _ => inv H end.
  match goal with H : Matches ARTICLE _ _ _ _ _ |- _ =>
    apply groupless_keeps in H; [subst|reflexivity] end.
  match goal with H : Matches (Cat PIECE_WORD _) _ _ _ _ _ |- _ => inv H end.
  match goal with H : Matches PIECE_WORD _ _ _ _ _ |- _ =>
    apply piece_word_groups in H; destruct H as [-> Hw] end.
  match goal with H : Matches (Cat ON _) _ _ _ _ _ |- _ => inv H end.
  match goal with H : Matches ON _ _ _ _ _ |- _ =>
    apply groupless_keeps in H; [subst|reflexivity] end.
  match goal with H : Matches SQ _ _ _ _ _ |- _ =>
    apply square_groups in H; destruct H as (f & r & -> & Hf & Hr & ->) end.
  eexists _, f, r. repeat split; eauto.
Qed.

Lemma san_groups l w a g :
  Matches SAN_PIECE_PATTERN l w a no_groups g ->
  exists c f r,
    g 1 = Some [c] /\ g 2 = Some [f; r] /\ one_of (T "KQRBNP") c = true /\
    between 97 104 f = true /\ between 49 56 r = true.
Proof.
  unfold SAN_PIECE_PATTERN. cbn [seq]. intros M.
  inv M. match goal with H : Matches (NotBehind _) _ _ _ _ _ |- _ => inv H end.
  match goal with H : Matches (Cat (Grp 1 _) _) _ _ _ _ _ |- _ => inv H end.
  match goal with H : Matches (Grp 1 _) _ _ _ _ _ |- _ => inv H end.
  match goal with H : Matches (Chr _) _ _ _ _ _ |- _ => inv H end.
  match goal with H : Matches (Cat (Grp 2 _) _) _ _ _ _ _ |- _ => inv H end.
  match goal with H : Matches (Grp 2 _) _ _ _ _ _ |- _ =>
    apply square_groups in H; destruct H as (f & r & -> & Hf & Hr & ->) end.
  match goal with H : Matches (NotAhead _) _ _ _ _ _ |- _ => inv H end.
  eexists _, f, r. repeat split; eauto.
Qed.


Ltac leb_false :=
  repeat match goal with
         | |- context [?a <=? ?b] =>
             replace (a <=? b) with false by (symmetry; apply Nat.leb_gt; lia)
         | |- context [?a =? ?b] =>
             replace (a =? b) with false by (symmetry; apply Nat.eqb_neq; lia)
         end.

Lemma between_spec lo hi c : between lo hi c = true -> lo <= code c <= hi.
Proof.
  unfold between. intros H. apply andb_prop in H. destruct H as [H1 H2].
  apply Nat.leb_le in H1, H2. lia.
Qed.

(** Digits and the lower-case letters a-h are their own lower case. *)
Lemma lower_chr_digit r : between 49 56 r = true -> lower_chr r = r.
Proof.
  intros H. apply between_spec in H. unfold lower_chr, between.
  leb_false. reflexivity.
Qed.

Lemma lower_chr_file f : between 97 104 f = true -> lower_chr f = f.
Proof.
  intros H. apply between_spec in H. unfold lower_chr, between.
  replace (code f <=? 90) with false by (symmetry; apply Nat.leb_gt; lia).
  rewrite andb_false_r.
  replace (192 <=? code f) with false by (symmetry; apply Nat.leb_gt; lia).
  reflexivity.
Qed.

(** The claim a reference stands for: its piece kind and its square. *)
Definition claim_of (r : ref) : option (piece_type * Square) :=
  match dict_get PIECE_NAMES (fst r), parse_square (snd r) with
  | Some pt, Some sq => Some (pt, sq)
  | _, _ => None
  end.

Definition is_claim (r : ref) : Prop := exists c, claim_of r = Some c.

Lemma piece_word_claim p f r :
  In p piece_words -> between 97 104 f = true -> between 49 56 r = true ->
  is_claim (p, [f; r]).
Proof.
  intros Hp Hf Hr. unfold is_claim, claim_of. simpl fst. simpl snd.
  assert (exists pt, dict_get PIECE_NAMES p = Some pt) as [pt ->].
  { unfold piece_words in Hp. simpl in Hp.
    repeat (destruct Hp as [<-|Hp]; [eexists; reflexivity|]). contradiction. }
  unfold parse_square. rewrite Hf, Hr. simpl. eauto.
Qed.

(** Every match of the natural-language grammar yields a claim. *)
Definition good_natural (m : match_obj) : Prop :=
  exists wp ws, group m 1 = Some wp /\ group m 2 = Some ws /\
                is_claim (lower wp, lower ws).

Lemma natural_match_good l a m : found PIECE_REF_PATTERN l a m -> good_natural m.
Proof.
  intros (pre & w & _ & _ & _ & M). apply natural_groups in M.
  destruct M as (wp & f & r & G1 & G2 & Hp & Hf & Hr).
  exists wp, [f; r]. repeat split; auto.
  unfold lower at 2. simpl map. rewrite (lower_chr_digit _ Hr).
  apply piece_word_claim; auto.
Qed.

(** Every match of the compact grammar yields a claim. *)
Definition good_san (m : match_obj) : Prop :=
  exists sym ws piece,
    group m 1 = Some sym /\ group m 2 = Some ws /\
    dict_get san_letter_to_name sym = Some piece /\ is_claim (piece, lower ws).

Lemma san_match_good l a m : found SAN_PIECE_PATTERN l a m -> good_san m.
Proof.
  intros (pre & w & _ & _ & _ & M). apply san_groups in M.
  destruct M as (c & f & r & G1 & G2 & Hc & Hf & Hr).
  assert (exists piece, dict_get san_letter_to_name [c] = Some piece /\
                        In piece piece_words) as (piece & Hd & Hp).
  { unfold one_of in Hc. simpl in Hc.
    repeat (apply orb_prop in Hc; destruct Hc as [Hc|Hc];
            [apply chr_eqb_eq in Hc; subst c; eexists; split;
             [reflexivity|simpl; auto 10]|]).
    discriminate. }
  exists [c], [f; r], piece. repeat split; auto.
  unfold lower. simpl map. rewrite (lower_chr_digit _ Hr), (lower_chr_file _ Hf).
  apply piece_word_claim; auto.
Qed.






End ExtractFacts.

(** ** Hallucination scoring and piece validation *)

Module ScoreFacts.
Import ReFacts ExtractFacts.

(** The severity tiers as the specification words them. *)
Definition holds_kind (board : Board) (kind : piece_type) (sq : Square) : bool :=
  match piece_at board sq with
  | Some p => piece_type_eqb (p_type p) kind
  | None => false
  end.

(** A piece of the kind stands somewhere on the board, of either color. *)
Definition exists_anywhere (board : Board) (kind : piece_type) : bool :=
  existsb (holds_kind board kind) SQUARES.



(** Some example positions. *)
Definition fen_after_e4 : text :=
  T "rnbqkbnr/pppppppp/8/8/4P3/8/PPPP1PPP/RNBQKBNR b KQkq e3 0 1".

Definition fen_bishop_ending : text := T "8/8/8/8/3k4/8/2B5/3K4 w - - 0 1".

Definition fen_malformed : text := T "rnbqkbnr/pppppppp/8/8 b KQkq - 0 1".

Definition NL : text := ["010"%char].

Lemma piece_type_eqb_eq a b : piece_type_eqb a b = true <-> a = b.
Proof. destruct a, b; simpl; split; congruence. Qed.

Lemma exists_anywhere_spec board kind :
  exists_anywhere board kind = true <->
  exists sq c, sq < 64 /\ piece_at board sq = Some (mkPiece kind c).
Proof.
  unfold exists_anywhere, holds_kind. rewrite existsb_exists. split.
  - intros (sq & Hin & H). apply in_seq in Hin.
    destruct (piece_at board sq) as [[k c]|] eqn:E; [|discriminate].
    simpl in H. apply piece_type_eqb_eq in H. subst. exists sq, c. split; [lia|auto].
  - intros (sq & c & Hlt & H). exists sq. split.
    + apply in_seq. lia.
    + rewrite H. simpl. now apply piece_type_eqb_eq.
Qed.





Section Scoring.

Variable chess_Board : text -> option Board.


(** C4.  On a position that cannot be decoded the score is 0, whatever the
    response says. *)
Theorem hallucination_score_malformed (response fen : text) :
  chess_Board fen = None -> hallucination_score chess_Board response fen = Some 0.
Proof.
  intros Hb. unfold hallucination_score. now rewrite Hb.
Qed.

(** C10.  [validate_pieces] on a refs string that strips and lower-cases to
    the empty text or to [none] is true without a look at the position; on
    any other refs string with a position that cannot be decoded it is false;
    on a decoded position it is true when no reference is extracted. *)
Theorem validate_pieces_cases (refs fen : text) :
  (lower (strip refs) = [] \/ lower (strip refs) = T "none" ->
   validate_pieces chess_Board refs fen = Some true) /\
  (lower (strip refs) <> [] -> lower (strip refs) <> T "none" ->
   chess_Board fen = None ->
   validate_pieces chess_Board refs fen = Some false) /\
  (forall board, chess_Board fen = Some board ->
   extract_piece_refs (lower (strip refs)) = Some [] ->
   validate_pieces chess_Board refs fen = Some true).
Proof.
  unfold validate_pieces. repeat split.
  - intros [-> | ->]; reflexivity.
  - intros H1 H2 Hb.
    destruct (lower (strip refs)) as [|c r] eqn:E; [congruence|].
    destruct (text_eqb (c :: r) (T "none")) eqn:Et.
    + apply text_eqb_eq in Et. congruence.
    + simpl. now rewrite Hb.
  - intros board Hb He.
    destruct (_ || _); [reflexivity|]. now rewrite Hb, He.
Qed.

End Scoring.


Lemma hallucination_score_malformed_witness :
  decode_placement fen_malformed = None /\
  hallucination_score decode_placement (T "REFS: queen d5") fen_malformed = Some 0.
Proof.
  assert (E : decode_placement fen_malformed = None) by (vm_compute; reflexivity).
  split; [exact E|].
  exact (hallucination_score_malformed decode_placement (T "REFS: queen d5")
           fen_malformed E).
Defined.

Lemma validate_pieces_cases_witness :
  validate_pieces decode_placement (T " None ") fen_malformed = Some true /\
  validate_pieces decode_placement (T "pawn e4") fen_malformed = Some false /\
  validate_pieces decode_placement (T "e4 is a fine square") fen_after_e4 = Some true.
Proof.
  split; [|split].
  - apply (validate_pieces_cases decode_placement (T " None ") fen_malformed).
    right. vm_compute. reflexivity.
  - apply (validate_pieces_cases decode_placement (T "pawn e4") fen_malformed).
    + vm_compute. discriminate.
    + vm_compute. discriminate.
    + vm_compute. reflexivity.
  - destruct (decode_placement fen_after_e4) as [board|] eqn:E;
      [|vm_compute in E; discriminate].
    apply (proj2 (proj2 (validate_pieces_cases decode_placement
                           (T "e4 is a fine square") fen_after_e4)) board).
    + exact E.
    + vm_compute. reflexivity.
Defined.

(** The scenarios of the specification. *)
Example scenario_scores :
  hallucination_score decode_placement
    (T "REFS: pawn e4" ++ NL ++ T "COACHING: Good central control.") fen_after_e4 = Some 0 /\
  hallucination_score decode_placement
    (T "REFS: knight e4" ++ NL ++ T "COACHING: Fine.") fen_after_e4 = Some 1 /\
  hallucination_score decode_placement
    (T "REFS: bishop e5" ++ NL ++ T "COACHING: Fine.") fen_after_e4 = Some 2 /\
  hallucination_score decode_placement
    (T "REFS: queen d5" ++ NL ++ T "COACHING: Fine.") fen_bishop_ending = Some 3.
Proof. vm_compute. auto. Qed.

End ScoreFacts.

(** ** The order of the extracted references *)

Module OrderFacts.
Import ReFacts ExtractFacts.

(** The reference a match of each grammar stands for. *)
Definition natural_key (m : match_obj) : option ref :=
  piece <- group m 1 ;; sq <- group m 2 ;; Some (lower piece, lower sq).

Definition san_key (m : match_obj) : option ref :=
  sym <- group m 1 ;; sq <- group m 2 ;;
  piece <- dict_get san_letter_to_name sym ;; Some (piece, lower sq).

(** A list without the elements seen before: each element stays where it
    first occurs. *)
Fixpoint first_seen (seen : list ref) (l : list ref) : list ref :=
  match l with
  | [] => []
  | x :: r =>
      if existsb (ref_eqb x) seen then first_seen seen r
      else x :: first_seen (x :: seen) r
  end.

(** The matches come one after the other in the text, without overlap. *)
Definition in_text_order (ms : list match_obj) : Prop :=
  StronglySorted (fun m1 m2 => m_end m1 <= m_start m2) ms.

(** The reading of the specification: the matches of both grammars merged by
    their position in the text, then without duplicates. *)
Fixpoint insert_by_start (x : nat * ref) (l : list (nat * ref)) : list (nat * ref) :=
  match l with
  | [] => [x]
  | y :: r => if fst x <=? fst y then x :: l else y :: insert_by_start x r
  end.

Definition positioned (key : match_obj -> option ref) (ms : list match_obj)
  : list (nat * ref) :=
  flat_map (fun m => match key m with Some k => [(m_start m, k)] | None => [] end) ms.

Definition spec_extract_references (txt : text) : list ref :=
  first_seen []
    (map snd
       (fold_right insert_by_start []
          (positioned natural_key (finditer PIECE_REF_PATTERN txt) ++
           positioned san_key (finditer SAN_PIECE_PATTERN txt)))).

Lemma ref_eqb_eq x y : ref_eqb x y = true <-> x = y.
Proof.
  destruct x as [a b], y as [c d]. unfold ref_eqb. simpl.
  rewrite andb_true_iff, !text_eqb_eq. split; [intros []|intros H; inv H]; auto.
  congruence.
Qed.

Lemma seen_spec x seen : existsb (ref_eqb x) seen = true <-> In x seen.
Proof.
  rewrite existsb_exists. split.
  - intros (y & Hy & E). apply ref_eqb_eq in E. now subst.
  - intros H. exists x. split; auto. now apply ref_eqb_eq.
Qed.

Lemma first_seen_in : forall l seen x,
  In x (first_seen seen l) <-> In x l /\ ~ In x seen.
Proof.
  induction l as [|y l IH]; intros seen x; simpl.
  - tauto.
  - destruct (existsb (ref_eqb y) seen) eqn:E.
    + apply seen_spec in E. rewrite IH. split.
      * intros [H1 H2]. auto.
      * intros [[<-|H1] H2]; [contradiction|auto].
    + assert (Hn : ~ In y seen).
      { intros H. apply seen_spec in H. congruence. }
      simpl. rewrite IH. simpl. split.
      * intros [<-|[H1 H2]]; [auto|]. split; auto.
      * intros [[<-|H1] H2]; [auto|].
        destruct (ref_eqb y x) eqn:Ex.
        -- apply ref_eqb_eq in Ex. auto.
        -- right. split; auto. intros [<-|H3]; auto.
           rewrite (proj2 (ref_eqb_eq y y) eq_refl) in Ex. discriminate.
Qed.

Lemma first_seen_nodup : forall l seen, NoDup (first_seen seen l).
Proof.
  induction l as [|y l IH]; intros seen; simpl.
  - constructor.
  - destruct (existsb (ref_eqb y) seen); auto.
    constructor; auto. rewrite first_seen_in. simpl. tauto.
Qed.

Lemma first_seen_app : forall k1 k2 seen,
  first_seen seen (k1 ++ k2) =
  first_seen seen k1 ++ first_seen (rev (first_seen seen k1) ++ seen) k2.
Proof.
  induction k1 as [|x k1 IH]; intros k2 seen; simpl; auto.
  destruct (existsb (ref_eqb x) seen); auto.
  simpl. rewrite IH, <- app_assoc. reflexivity.
Qed.

(** Each loop appends to [results] the keys of its matches not seen before. *)
Lemma natural_loop_first_seen : forall ms keys st,
  map natural_key ms = map Some keys ->
  natural_loop ms st =
  Some (mkAcc (results st ++ first_seen (seen st) keys)
              (rev (first_seen (seen st) keys) ++ seen st)).
Proof.
  induction ms as [|m ms IH]; intros [|k keys] st H; simpl in H; try discriminate.
  - simpl. rewrite app_nil_r. now destruct st.
  - inv H. unfold natural_key in H1. cbn [natural_loop].
    destruct (group m 1) as [p|]; [|discriminate].
    destruct (group m 2) as [s|]; [|discriminate]. inv H1.
    rewrite (IH keys) by assumption. unfold note. simpl.
    destruct (existsb _ (seen st)); simpl; auto.
    now rewrite <- !app_assoc.
Qed.

Lemma san_loop_first_seen : forall ms keys st,
  map san_key ms = map Some keys ->
  san_loop ms st =
  Some (mkAcc (results st ++ first_seen (seen st) keys)
              (rev (first_seen (seen st) keys) ++ seen st)).
Proof.
  induction ms as [|m ms IH]; intros [|k keys] st H; simpl in H; try discriminate.
  - simpl. rewrite app_nil_r. now destruct st.
  - inv H. unfold san_key in H1. cbn [san_loop].
    destruct (group m 1) as [p|]; [|discriminate].
    destruct (group m 2) as [s|]; [|discriminate].
    destruct (dict_get san_letter_to_name p) as [piece|]; [|discriminate]. inv H1.
    rewrite (IH keys) by assumption. unfold note. simpl.
    destruct (existsb _ (seen st)); simpl; auto.
    now rewrite <- !app_assoc.
Qed.

Lemma good_natural_keys ms :
  Forall good_natural ms -> exists keys, map natural_key ms = map Some keys.
Proof.
  induction 1 as [|m ms (wp & ws & G1 & G2 & _) _ [keys IH]].
  - exists []. reflexivity.
  - exists ((lower wp, lower ws) :: keys). simpl. unfold natural_key at 1.
    rewrite G1, G2. f_equal. exact IH.
Qed.

Lemma good_san_keys ms :
  Forall good_san ms -> exists keys, map san_key ms = map Some keys.
Proof.
  induction 1 as [|m ms (sym & ws & piece & G1 & G2 & G3 & _) _ [keys IH]].
  - exists []. reflexivity.
  - exists ((piece, lower ws) :: keys). simpl. unfold san_key at 1.
    rewrite G1, G2, G3. f_equal. exact IH.
Qed.

Lemma natural_keys_exist txt :
  exists keys, map natural_key (finditer PIECE_REF_PATTERN txt) = map Some keys.
Proof.
  apply good_natural_keys, Forall_forall. intros m Hm. apply finditer_sound in Hm.
  destruct Hm as (l & a & Hm). eapply natural_match_good; eauto.
Qed.

Lemma san_keys_exist txt :
  exists keys, map san_key (finditer SAN_PIECE_PATTERN txt) = map Some keys.
Proof.
  apply good_san_keys, Forall_forall. intros m Hm. apply finditer_sound in Hm.
  destruct Hm as (l & a & Hm). eapply san_match_good; eauto.
Qed.

(** The matches of [finditer] are in text order. *)
Lemma found_bounds r l a m :
  found r l a m -> length l <= m_start m /\ m_start m <= m_end m.
Proof.
  intros (pre & w & _ & E2 & E3 & _). unfold m_start, m_end.
  rewrite E3, E2, !length_app. lia.
Qed.

Lemma finditer_from_after r : forall fuel l a m,
  In m (finditer_from fuel r l a) -> length l <= m_start m.
Proof.
  induction fuel as [|fuel IH]; intros l a m H; simpl in H; [contradiction|].
  destruct (search_from r l a) as [m0|] eqn:E; [|contradiction].
  apply search_from_sound, found_bounds in E.
  destruct H as [<-|H]; [lia|].
  destruct (m_end m0 =? m_start m0).
  - destruct (m_rest m0); [contradiction|]. apply IH in H. simpl in H.
    unfold m_end in E. lia.
  - apply IH in H. unfold m_end in E. lia.
Qed.

Lemma finditer_from_order r : forall fuel l a,
  in_text_order (finditer_from fuel r l a).
Proof.
  induction fuel as [|fuel IH]; intros l a; simpl; [constructor|].
  destruct (search_from r l a) as [m0|] eqn:E; [|constructor].
  constructor.
  - destruct (m_end m0 =? m_start m0); [destruct (m_rest m0)|];
      solve [apply IH | constructor].
  - apply Forall_forall. intros m H.
    destruct (m_end m0 =? m_start m0) eqn:Ee.
    + destruct (m_rest m0); [contradiction|]. apply finditer_from_after in H.
      simpl in H. unfold m_end. lia.
    + apply finditer_from_after in H. unfold m_end. lia.
Qed.

(** The fuel of [finditer] never runs out: any fuel above the length of the
    text still to scan gives the same matches. *)
Lemma finditer_fuel r : forall fuel1 fuel2 l a,
  length a < fuel1 -> length a < fuel2 ->
  finditer_from fuel1 r l a = finditer_from fuel2 r l a.
Proof.
  induction fuel1 as [|fuel1 IH]; intros [|fuel2] l a H1 H2; try lia.
  simpl. destruct (search_from r l a) as [m|] eqn:E; auto.
  f_equal. apply search_from_sound in E.
  destruct E as (pre & w & Ea & Eb & Eu & _).
  assert (Hlen : length a = length pre + length w + length (m_rest m)).
  { rewrite Ea, !length_app. lia. }
  destruct (m_end m =? m_start m) eqn:Ee.
  - destruct (m_rest m) as [|c a'] eqn:Er; auto.
    apply IH; simpl in Hlen; lia.
  - apply Nat.eqb_neq in Ee. unfold m_end, m_start in Ee.
    rewrite Eu, length_app, length_rev in Ee.
    apply IH; lia.
Qed.

Lemma finditer_order r s : in_text_order (finditer r s).
Proof. apply finditer_from_order. Qed.

(** C7, as the code has it.  The matches of each grammar are in text order;
    the result is the references of the natural-language matches followed by
    those of the compact-notation matches, each reference kept where it is
    first seen in that sequence; it has no duplicates and holds exactly the
    references of the two grammars. *)
Theorem extract_piece_refs_order (txt : text) :
  exists natural_keys san_keys,
    map natural_key (finditer PIECE_REF_PATTERN txt) = map Some natural_keys /\
    map san_key (finditer SAN_PIECE_PATTERN txt) = map Some san_keys /\
    in_text_order (finditer PIECE_REF_PATTERN txt) /\
    in_text_order (finditer SAN_PIECE_PATTERN txt) /\
    extract_piece_refs txt = Some (first_seen [] (natural_keys ++ san_keys)) /\
    NoDup (first_seen [] (natural_keys ++ san_keys)) /\
    (forall k, In k (first_seen [] (natural_keys ++ san_keys)) <->
               In k natural_keys \/ In k san_keys).
Proof.
  destruct (natural_keys_exist txt) as [nk Hn].
  destruct (san_keys_exist txt) as [sk Hs].
  exists nk, sk. repeat split; auto using finditer_order, first_seen_nodup.
  - unfold extract_piece_refs.
    rewrite (natural_loop_first_seen _ nk) by assumption.
    rewrite (san_loop_first_seen _ sk) by assumption.
    simpl. now rewrite first_seen_app, !app_nil_r.
  - rewrite first_seen_in, in_app_iff. tauto.
  - rewrite first_seen_in, in_app_iff. simpl. tauto.
Qed.

(** The claim as stated fails: the compact reference [Nf3] comes first in
    the text and last in the result. *)
Lemma extract_piece_refs_not_by_position :
  extract_piece_refs (T "Nf3 then bishop e5")
  = Some [ (T "bishop", T "e5"); (T "knight", T "f3") ] /\
  spec_extract_references (T "Nf3 then bishop e5")
  = [ (T "knight", T "f3"); (T "bishop", T "e5") ] /\
  extract_piece_refs (T "Nf3 then bishop e5")
  <> Some (spec_extract_references (T "Nf3 then bishop e5")).
Proof.
  repeat split; try (vm_compute; reflexivity).
  vm_compute. discriminate.
Qed.

End OrderFacts.

(** ** Bare squares *)

Module BareSquareFacts.
Import ReFacts ExtractFacts BenchM4.

Lemma split_without_separator d : forall s, ~ In d s -> split d s = [s].
Proof.
  induction s as [|c s IH]; intros H; simpl; auto.
  destruct (chr_eqb c d) eqn:E.
  - apply chr_eqb_eq in E. subst. exfalso. apply H. now left.
  - rewrite IH; auto. intros Hin. apply H. now right.
Qed.






End BareSquareFacts.

(** ** Post-validation of the refs *)

Module PostValidationFacts.
Import ReFacts ExtractFacts BenchShallowFix.

(** *** Lemmas on [strip], [split] and [join] *)

Lemma lstrip_idempotent : forall s, lstrip (lstrip s) = lstrip s.
Proof.
  induction s as [|c s IH]; simpl; auto.
  destruct (isspace c) eqn:E; auto. simpl. now rewrite E.
Qed.

Lemma lstrip_length : forall s, length (lstrip s) <= length s.
Proof.
  induction s as [|c s IH]; simpl; auto.
  destruct (isspace c); simpl; lia.
Qed.

Lemma lstrip_fixed c s : lstrip (c :: s) = c :: s -> isspace c = false.
Proof.
  simpl. destruct (isspace c); auto. intros H.
  pose proof (lstrip_length s) as L. rewrite H in L. simpl in L. lia.
Qed.

Lemma lstrip_snoc : forall u c,
  lstrip (u ++ [c]) =
  match lstrip u with
  | [] => if isspace c then [] else [c]
  | _ :: _ => lstrip u ++ [c]
  end.
Proof.
  induction u as [|d u IH]; intros c; simpl; auto.
  destruct (isspace d); auto.
Qed.

Lemma rstrip_cons c s :
  rstrip (c :: s) =
  match rstrip s with
  | [] => if isspace c then [] else [c]
  | _ :: _ => c :: rstrip s
  end.
Proof.
  unfold rstrip. simpl. rewrite lstrip_snoc.
  destruct (lstrip (rev s)) as [|d u] eqn:E; simpl.
  - destruct (isspace c); reflexivity.
  - rewrite rev_app_distr. simpl.
    destruct (rev u ++ [d]) eqn:E2; auto. now destruct (rev u).
Qed.

(** A text without white space at either end. *)
Definition stripped (v : text) : Prop := lstrip v = v /\ lstrip (rev v) = rev v.

Lemma strip_stripped s : stripped (strip s).
Proof.
  unfold stripped, strip. split.
  - pose proof (lstrip_idempotent s) as H.
    destruct (lstrip s) as [|c t]; [reflexivity|].
    apply lstrip_fixed in H. rewrite rstrip_cons.
    destruct (rstrip t); rewrite ?H; simpl; rewrite ?H; reflexivity.
  - unfold rstrip. rewrite rev_involutive. apply lstrip_idempotent.
Qed.

Lemma stripped_strip v : stripped v -> strip v = v.
Proof.
  intros [H1 H2]. unfold strip, rstrip. rewrite H1, H2. apply rev_involutive.
Qed.

Lemma stripped_after_blank v : stripped v -> strip (" "%char :: v) = v.
Proof.
  intros H. unfold strip. change (lstrip (" "%char :: v)) with (lstrip v).
  now apply stripped_strip.
Qed.

Lemma lstrip_in x : forall s, In x (lstrip s) -> In x s.
Proof.
  induction s as [|c s IH]; simpl; auto.
  destruct (isspace c); simpl; auto.
Qed.

Lemma strip_in x s : In x (strip s) -> In x s.
Proof.
  unfold strip, rstrip. intros H. apply in_rev in H.
  apply lstrip_in in H. apply in_rev in H. now apply lstrip_in.
Qed.

Lemma split_nonempty d s : split d s <> [].
Proof.
  destruct s as [|c s]; simpl; [discriminate|].
  destruct (chr_eqb c d); [discriminate|]. destruct (split d s); discriminate.
Qed.

Lemma split_pieces d : forall s p, In p (split d s) -> ~ In d p.
Proof.
  induction s as [|c s IH]; intros p H; simpl in H.
  - destruct H as [<-|[]]. auto.
  - destruct (chr_eqb c d) eqn:E.
    + destruct H as [<-|H]; auto.
    + destruct (split d s) as [|h t] eqn:Es.
      * destruct H as [<-|[]]. intros [->|[]].
        rewrite Ascii.eqb_refl in E. discriminate.
      * destruct H as [<-|H].
        -- intros [->|Hin].
           ++ unfold chr_eqb in E. rewrite Ascii.eqb_refl in E. discriminate.
           ++ apply (IH h); simpl; auto.
        -- apply IH. simpl. auto.
Qed.

Lemma split_app d : forall v rest,
  ~ In d v -> split d (v ++ d :: rest) = v :: split d rest.
Proof.
  induction v as [|c v IH]; intros rest H; simpl.
  - unfold chr_eqb. now rewrite Ascii.eqb_refl.
  - destruct (chr_eqb c d) eqn:E.
    + apply chr_eqb_eq in E. subst. exfalso. apply H. now left.
    + rewrite IH; auto. intros Hin. apply H. now right.
Qed.

(** Splitting a join at the commas gives the parts back, each but the first
    after the blank of the separator. *)
Lemma split_join : forall parts pfx,
  parts <> [] -> (forall p, In p parts -> ~ In ","%char p) -> ~ In ","%char pfx ->
  split "," (pfx ++ join (T ", ") parts) =
  (pfx ++ hd [] parts) :: map (fun p => " "%char :: p) (tl parts).
Proof.
  induction parts as [|v parts IH]; intros pfx Hne Hc Hp; [congruence|].
  destruct parts as [|v' parts].
  - simpl. apply BareSquareFacts.split_without_separator.
    rewrite in_app_iff. intros [H|H]; [auto|]. apply (Hc v); simpl; auto.
  - change (join (T ", ") (v :: v' :: parts))
      with (v ++ ","%char :: [" "%char] ++ join (T ", ") (v' :: parts)).
    rewrite app_assoc, split_app.
    + rewrite (IH [" "%char]).
      * reflexivity.
      * discriminate.
      * intros p Hin. apply Hc. simpl. simpl in Hin. tauto.
      * intros [H|[]]. discriminate.
    + rewrite in_app_iff. intros [H|H]; [auto|]. apply (Hc v); simpl; auto.
Qed.

Lemma strip_split_join parts :
  parts <> [] -> (forall p, In p parts -> ~ In ","%char p /\ stripped p) ->
  map strip (split "," (join (T ", ") parts)) = parts.
Proof.
  intros Hne H.
  assert (E : split "," (join (T ", ") parts) =
              hd [] parts :: map (fun p => " "%char :: p) (tl parts)).
  { apply (split_join parts []); auto. intros p Hin. now apply H. }
  rewrite E. destruct parts as [|v parts]; [congruence|]. simpl. f_equal.
  - apply stripped_strip, H. simpl. auto.
  - rewrite map_map. rewrite <- (map_id parts) at 2. apply map_ext_in.
    intros p Hin. apply stripped_after_blank, H. simpl. auto.
Qed.

(** *** The loop as a filter *)

(** Whether the loop keeps a fragment: it has no square token, or the first
    one names an occupied square. *)
Definition kept (board : Board) (ref : text) : bool :=
  match search SQUARE_TOKEN ref with
  | None => true
  | Some m =>
      match group m 1 with
      | Some name =>
          match parse_square name with
          | Some sq => is_some (piece_at board sq)
          | None => false
          end
      | None => false
      end
  end.

Lemma square_token_groups l w a g :
  Matches SQUARE_TOKEN l w a no_groups g ->
  exists f r, g 1 = Some [f; r] /\ between 97 104 f = true /\ between 49 56 r = true.
Proof.
  unfold SQUARE_TOKEN. intros M. apply square_groups in M.
  destruct M as (f & r & -> & Hf & Hr & ->). exists f, r. repeat split; auto.
Qed.

Lemma square_token_parses ref m :
  search SQUARE_TOKEN ref = Some m ->
  exists name sq, group m 1 = Some name /\ parse_square name = Some sq.
Proof.
  intros H. apply search_sound in H. destruct H as (pre & w & _ & _ & _ & M).
  apply square_token_groups in M. destruct M as (f & r & Hg & Hf & Hr).
  exists [f; r]. unfold parse_square. rewrite Hf, Hr. simpl. eauto.
Qed.

(** The loop raises nothing; it keeps the fragments that [kept] accepts, in
    their order, and counts the others. *)
Lemma validate_loop_filter board : forall raw_refs validated rejected,
  validate_loop board raw_refs validated rejected =
  Some (validated ++ filter (kept board) raw_refs,
        rejected + length (filter (fun r => negb (kept board r)) raw_refs)).
Proof.
  induction raw_refs as [|ref rest IH]; intros validated rejected;
    cbn [validate_loop filter].
  - simpl. now rewrite app_nil_r, Nat.add_0_r.
  - destruct (search SQUARE_TOKEN ref) as [m|] eqn:Es.
    + destruct (square_token_parses _ _ Es) as (name & sq & Hg & Hp).
      assert (Hk : kept board ref = is_some (piece_at board sq)).
      { unfold kept. now rewrite Es, Hg, Hp. }
      rewrite Hg, Hp, Hk.
      destruct (piece_at board sq); simpl; rewrite IH.
      * now rewrite <- app_assoc.
      * f_equal. f_equal. lia.
    + assert (Hk : kept board ref = true).
      { unfold kept. now rewrite Es. }
      rewrite Hk. simpl. rewrite IH. now rewrite <- app_assoc.
Qed.

Definition with_fallback (validated : list text) : list text :=
  match validated with
  | [] => [T "current position"]
  | _ => validated
  end.

Lemma clean_refs_filter board refs_text :
  clean_refs board refs_text =
  let raw_refs := map strip (split "," refs_text) in
  Some (join (T ", ") (with_fallback (filter (kept board) raw_refs)),
        length (filter (fun r => negb (kept board r)) raw_refs)).
Proof.
  unfold clean_refs. rewrite validate_loop_filter. reflexivity.
Qed.

(** [clean_refs], the split, loop, fallback and join of
    [post_validate_refs], returns a result for every refs string, and a second
    pass over its own cleaned refs returns the same cleaned refs and rejects
    no fragment. *)
Lemma clean_refs_idempotent (board : Board) (refs_text : text) :
  exists cleaned rejected,
    clean_refs board refs_text = Some (cleaned, rejected) /\
    clean_refs board cleaned = Some (cleaned, 0).
Proof.
  rewrite clean_refs_filter. cbv zeta.
  set (raw := map strip (split "," refs_text)).
  set (V := with_fallback (filter (kept board) raw)).
  exists (join (T ", ") V), (length (filter (fun r => negb (kept board r)) raw)).
  split; [reflexivity|].
  assert (HV : forall p, In p V -> (~ In ","%char p /\ stripped p) /\ kept board p = true).
  { intros p Hin. unfold V, with_fallback in Hin.
    destruct (filter (kept board) raw) as [|v vs] eqn:Ef.
    - destruct Hin as [<-|[]]. repeat split; try (vm_compute; reflexivity).
      vm_compute. intuition discriminate.
    - rewrite <- Ef in Hin. apply filter_In in Hin. destruct Hin as [Hin Hk].
      split; auto. unfold raw in Hin. apply in_map_iff in Hin.
      destruct Hin as (q & <- & Hq). split; [|apply strip_stripped].
      intros Hc. apply strip_in in Hc. now apply (split_pieces _ _ _ Hq). }
  assert (Hne : V <> []).
  { unfold V, with_fallback. destruct (filter (kept board) raw); discriminate. }
  rewrite clean_refs_filter. cbv zeta.
  rewrite strip_split_join; auto; [|intros p Hin; now apply HV].
  assert (Hall : filter (kept board) V = V).
  { apply forallb_filter_id. apply forallb_forall. intros p Hin. now apply HV. }
  assert (Hnone : filter (fun r => negb (kept board r)) V = []).
  { clear Hall Hne. induction V as [|v V IH]; simpl; auto.
    rewrite (proj2 (HV v (or_introl eq_refl))). simpl.
    apply IH. intros p Hin. apply HV. now right. }
  rewrite Hall, Hnone. simpl. f_equal. f_equal.
  unfold with_fallback. destruct V; [congruence|reflexivity].
Qed.


(** The loop of [bench_final_accuracy.py] is the same loop. *)
Lemma filter_loop_validate_loop board : forall raw_parts cleaned_parts removed,
  BenchFinalAccuracy.filter_loop board raw_parts cleaned_parts removed =
  validate_loop board raw_parts cleaned_parts removed.
Proof.
  induction raw_parts as [|part rest IH]; intros cleaned_parts removed.
  - reflexivity.
  - cbn [BenchFinalAccuracy.filter_loop validate_loop].
    change BenchFinalAccuracy.SQUARE_TOKEN with SQUARE_TOKEN.
    destruct (search SQUARE_TOKEN part) as [m|]; [|apply IH].
    destruct (group m 1) as [name|]; [|reflexivity].
    destruct (parse_square name) as [sq|]; [|reflexivity].
    destruct (piece_at board sq); apply IH.
Qed.

Section Board.

Variable chess_Board : text -> option Board.

Lemma post_validate_response_filter ref_squares refs_raw coaching fen board :
  chess_Board fen = Some board ->
  BenchFinalAccuracy.post_validate_response chess_Board ref_squares refs_raw coaching fen =
  let raw_parts := map strip (split "," refs_raw) in
  let cleaned_parts := filter (kept board) raw_parts in
  let removed := length (filter (fun r => negb (kept board r)) raw_parts) in
  Some (cleaned_parts, removed, (length cleaned_parts =? 0) && (0 <? removed)).
Proof.
  intros Hb. unfold BenchFinalAccuracy.post_validate_response.
  rewrite Hb, filter_loop_validate_loop, validate_loop_filter. reflexivity.
Qed.

(** What the filter does deliver: every fragment that [post_validate_response]
    keeps has no square token or has an occupied square as its first token,
    and the fragments removed are those whose first token is an empty
    square. *)
Lemma post_validate_response_first_tokens ref_squares refs_raw coaching fen board :
  chess_Board fen = Some board ->
  exists cleaned_parts removed all_removed,
    BenchFinalAccuracy.post_validate_response chess_Board ref_squares refs_raw coaching fen
    = Some (cleaned_parts, removed, all_removed) /\
    (forall part, In part cleaned_parts <->
                  In part (map strip (split "," refs_raw)) /\ kept board part = true) /\
    removed + length cleaned_parts = length (split "," refs_raw).
Proof.
  intros Hb. rewrite (post_validate_response_filter _ _ _ _ _ Hb). cbv zeta.
  eexists _, _, _. split; [reflexivity|]. split.
  - intros part. apply filter_In.
  - rewrite <- (length_map strip (split "," refs_raw)).
    induction (map strip (split "," refs_raw)) as [|p ps IH]; simpl; auto.
    destruct (kept board p); simpl; lia.
Qed.




End Board.


(** *** The whole response *)

(** The longest run is what a greedy star takes when the rest of the pattern
    accepts it. *)
Lemma run_star_greedy (R : Type) p : forall w l a g (k : cont R) x,
  forallb p w = true -> head_is p a = false ->
  k (rev w ++ l) a g = Some x -> run_star p l (w ++ a) g k = Some x.
Proof.
  induction w as [|c w IH]; intros l a g k x Hw Ha Hk; simpl in *.
  - destruct a as [|d a]; simpl in *; auto. now rewrite Ha.
  - apply andb_prop in Hw. destruct Hw as [Hc Hw]. rewrite Hc.
    rewrite (IH (c :: l) a g k x); auto. now rewrite <- app_assoc in Hk.
Qed.

Lemma search_from_hit r l a m :
  match_at r l a = Some m -> search_from r l a = Some m.
Proof. intros H. destruct a; simpl; now rewrite H. Qed.

(** A pattern that begins with [^] finds nothing inside a line. *)
Lemma search_from_skip_line r : forall u c l a,
  chr_eqb c "010" = false -> ~ In "010"%char u ->
  search_from (Cat Bol r) (c :: l) (u ++ a) =
  search_from (Cat Bol r) (rev u ++ c :: l) a.
Proof.
  assert (Hfail : forall c l a, chr_eqb c "010" = false ->
                                match_at (Cat Bol r) (c :: l) a = None).
  { intros c l a Hc. unfold match_at. cbn [run at_bol]. now rewrite Hc. }
  induction u as [|d u IH]; intros c l a Hc Hu; [reflexivity|].
  cbn [app search_from]. rewrite Hfail by assumption.
  rewrite IH.
  - cbn [rev]. now rewrite <- app_assoc.
  - destruct (chr_eqb d "010") eqn:E; auto.
    apply chr_eqb_eq in E. subst d. exfalso. apply Hu. now left.
  - intros Hin. apply Hu. now right.
Qed.

(** The body of a label line: not empty, no white space in front, no line
    feed. *)
Definition line_body (s : text) : Prop :=
  s <> [] /\ head_is isspace s = false /\ ~ In "010"%char s.

Definition canonical (refs coaching : text) : text :=
  T "REFS: " ++ refs ++ ["010"%char] ++ T "COACHING: " ++ coaching.

(** The body of a label line, read by [^LABEL:\s*(.+)] from the start of
    the line. *)
Lemma label_line_match label (word body l rest : text) :
  lit_ok true label word = true -> at_bol l = true ->
  line_body body -> at_eol rest = true ->
  exists m,
    match_at (seq [Bol; LitI label; Star isspace; Grp 1 (Plus not_newline)]) l
      (word ++ " "%char :: body ++ rest) = Some m /\
    group m 1 = Some body.
Proof.
  intros Hw Hl (Hne & Hsp & Hnl) Hr.
  destruct body as [|c0 body']; [congruence|].
  assert (Hc0 : not_newline c0 = true).
  { unfold not_newline. destruct (chr_eqb c0 "010") eqn:E; auto.
    apply chr_eqb_eq in E. subst. exfalso. apply Hnl. now left. }
  assert (Hbody : forallb not_newline body' = true).
  { apply forallb_forall. intros d Hd. unfold not_newline.
    destruct (chr_eqb d "010") eqn:E; auto.
    apply chr_eqb_eq in E. subst. exfalso. apply Hnl. now right. }
  assert (Hrest : head_is not_newline rest = false).
  { destruct rest as [|d rest']; [reflexivity|]. simpl in *.
    unfold not_newline. now rewrite Hr. }
  set (l1 := " "%char :: rev word ++ l).
  exists (MatchObj l (rev (c0 :: body') ++ l1) rest
            (set_group 1 (captured l1 (rev (c0 :: body') ++ l1)) no_groups)).
  split.
  - unfold match_at. cbn [seq run]. rewrite Hl.
    rewrite run_lit_complete by assumption.
    change (" "%char :: (c0 :: body') ++ rest)
      with ([" "%char] ++ (c0 :: body') ++ rest).
    apply run_star_greedy; [reflexivity | exact Hsp |].
    cbn [run app rev]. rewrite Hc0.
    apply run_star_greedy; [exact Hbody | exact Hrest |].
    cbn [rev]. now rewrite <- !app_assoc.
  - cbn [group m_groups]. unfold set_group. cbn [Nat.eqb]. f_equal.
    apply captured_app.
Qed.

Lemma split_in x d : forall s q, In q (split d s) -> In x q -> In x s.
Proof.
  induction s as [|c s IH]; intros q Hq Hx; simpl in Hq.
  - destruct Hq as [<-|[]]. contradiction.
  - destruct (chr_eqb c d).
    + destruct Hq as [<-|Hq]; [contradiction|]. right. eauto.
    + destruct (split d s) as [|h t] eqn:Es.
      * destruct Hq as [<-|[]]. destruct Hx as [->|[]]. now left.
      * destruct Hq as [<-|Hq].
        -- destruct Hx as [->|Hx]; [now left|]. right. apply (IH h); simpl; auto.
        -- right. apply (IH q); simpl; auto.
Qed.

Lemma join_no_newline : forall V : list text,
  (forall p, In p V -> ~ In "010"%char p) -> ~ In "010"%char (join (T ", ") V).
Proof.
  induction V as [|v V IH]; intros HV; [auto|].
  assert (Hv : ~ In "010"%char v) by (apply HV; now left).
  assert (IH' : ~ In "010"%char (join (T ", ") V)).
  { apply IH. intros p Hin. apply HV. now right. }
  destruct V as [|v' V']; [exact Hv|].
  change (join (T ", ") (v :: v' :: V'))
    with (v ++ T ", " ++ join (T ", ") (v' :: V')).
  intros Hin. apply in_app_or in Hin. destruct Hin as [Hin|Hin]; [auto|].
  apply in_app_or in Hin. destruct Hin as [Hin|Hin]; [|auto].
  vm_compute in Hin. intuition discriminate.
Qed.

(** The cleaned refs of a line are the body of a line again, unless they are
    empty. *)
Lemma cleaned_line_body board (refs cleaned : text) (rejected : nat) :
  ~ In "010"%char refs ->
  clean_refs board refs = Some (cleaned, rejected) -> cleaned <> [] ->
  line_body cleaned.
Proof.
  intros Hr Hclean Hne.
  rewrite clean_refs_filter in Hclean. cbv zeta in Hclean.
  injection Hclean as <- _.
  set (V := with_fallback (filter (kept board) (map strip (split "," refs)))) in *.
  assert (HV : forall p, In p V -> stripped p /\ ~ In "010"%char p).
  { intros p Hin. unfold V, with_fallback in Hin.
    destruct (filter (kept board) (map strip (split "," refs))) as [|v vs] eqn:Ef.
    - destruct Hin as [<-|[]]. split; [split; reflexivity|].
      vm_compute. intuition discriminate.
    - rewrite <- Ef in Hin. apply filter_In in Hin. destruct Hin as [Hin _].
      apply in_map_iff in Hin. destruct Hin as (q & <- & Hq).
      split; [apply strip_stripped|]. intros Hn. apply strip_in in Hn.
      apply Hr. eapply split_in; eauto. }
  clearbody V. repeat split; auto.
  - destruct V as [|v V']; [contradiction|].
    destruct (HV v (or_introl eq_refl)) as [[Hs _] _].
    destruct v as [|c v'].
    + destruct V'; [contradiction|reflexivity].
    + apply lstrip_fixed in Hs. destruct V'; simpl; exact Hs.
  - apply join_no_newline. intros p Hin. now apply HV.
Qed.

Section WholeText.

Variable chess_Board : text -> option Board.

(** On a response of the two label lines, [post_validate_refs] cleans the
    body of the REFS line with [clean_refs] and keeps the COACHING line. *)
Lemma post_validate_refs_canonical (refs coaching fen : text) (board : Board) :
  chess_Board fen = Some board -> line_body refs -> line_body coaching ->
  post_validate_refs chess_Board (canonical refs coaching) fen =
  match clean_refs board refs with
  | Some (cleaned, rejected) => Some (canonical cleaned coaching, rejected)
  | None => None
  end.
Proof.
  intros Hb Hr Hc. unfold post_validate_refs. rewrite Hb.
  assert (E1 : exists m, search REFS_RE (canonical refs coaching) = Some m /\
                         group m 1 = Some refs).
  { destruct (label_line_match (T "refs:") (T "REFS:") refs []
                (["010"%char] ++ T "COACHING: " ++ coaching))
      as (m & Hm & Hg); auto.
    exists m. split; auto. unfold search, canonical.
    destruct refs as [|c0 r']; [destruct Hr; congruence|].
    change (search_from REFS_RE [] (T "REFS: " ++ (c0 :: r') ++
              ["010"%char] ++ T "COACHING: " ++ coaching))
      with (match match_at REFS_RE [] (T "REFS:" ++ " "%char :: (c0 :: r') ++
                    ["010"%char] ++ T "COACHING: " ++ coaching) with
            | Some m' => Some m'
            | None => search_from REFS_RE ["R"%char] (T "EFS: " ++ (c0 :: r') ++
                        ["010"%char] ++ T "COACHING: " ++ coaching)
            end).
    unfold REFS_RE. now rewrite Hm. }
  assert (E2 : exists m, search COACHING_RE (canonical refs coaching) = Some m /\
                         group m 1 = Some coaching).
  { destruct Hr as (Hr1 & Hr2 & Hr3).
    destruct (label_line_match (T "coaching:") (T "COACHING:") coaching
                ("010"%char :: rev (T "EFS: " ++ refs) ++ ["R"%char]) [])
      as (m & Hm & Hg); auto.
    exists m. split; auto. unfold search, canonical.
    change (search_from COACHING_RE [] (T "REFS: " ++ refs ++
              ["010"%char] ++ T "COACHING: " ++ coaching))
      with (search_from COACHING_RE ["R"%char] ((T "EFS: " ++ refs) ++
              ["010"%char] ++ T "COACHING: " ++ coaching)).
    unfold COACHING_RE. cbn [seq].
    rewrite search_from_skip_line; [|reflexivity|].
    - cbn [app search_from]. unfold match_at at 1. cbn [run].
      assert (Hl : at_bol (rev (T "EFS: " ++ refs) ++ ["R"%char]) = false).
      { destruct (rev (T "EFS: " ++ refs)) as [|d t] eqn:Er.
        - reflexivity.
        - assert (Hd : In d (T "EFS: " ++ refs)).
          { apply in_rev. rewrite Er. now left. }
          cbn [app at_bol]. destruct (chr_eqb d "010") eqn:E; auto.
          apply chr_eqb_eq in E. subst d. apply in_app_or in Hd.
          destruct Hd as [Hd|Hd]; [|contradiction].
          vm_compute in Hd. intuition discriminate. }
      rewrite Hl. rewrite app_nil_r in Hm. cbn [seq] in Hm.
      change (T "COACHING: " ++ coaching) with (T "COACHING:" ++ " "%char :: coaching).
      now apply search_from_hit.
    - intros Hin. apply in_app_or in Hin. destruct Hin as [Hin|Hin]; [|contradiction].
      vm_compute in Hin. intuition discriminate. }
  destruct E1 as (m1 & -> & ->). destruct E2 as (m2 & -> & ->).
  destruct (clean_refs board refs) as [[cleaned rejected]|]; reflexivity.
Qed.

(** A second pass over the output of [post_validate_refs] returns it
    unchanged and rejects nothing, as long as the cleaned refs are not
    empty. *)
Lemma post_validate_refs_second_pass (refs coaching fen : text) (board : Board)
  (cleaned : text) (rejected : nat) :
  chess_Board fen = Some board -> line_body refs -> line_body coaching ->
  clean_refs board refs = Some (cleaned, rejected) -> cleaned <> [] ->
  post_validate_refs chess_Board (canonical refs coaching) fen
  = Some (canonical cleaned coaching, rejected) /\
  post_validate_refs chess_Board (canonical cleaned coaching) fen
  = Some (canonical cleaned coaching, 0).
Proof.
  intros Hb Hr Hc Hclean Hne.
  rewrite (post_validate_refs_canonical _ _ _ _ Hb Hr Hc), Hclean.
  split; [reflexivity|].
  destruct (clean_refs_idempotent board refs) as (cl & rj & H1 & H2).
  rewrite Hclean in H1. injection H1 as <- <-.
  rewrite (post_validate_refs_canonical _ _ _ _ Hb); auto; [now rewrite H2|].
  destruct Hr as (_ & _ & Hr). eapply cleaned_line_body; eauto.
Qed.

End WholeText.

(** Over a whole response [post_validate_refs] reads the refs line again
    with [REFS_RE].  A second pass over its own output returns it unchanged
    as long as the cleaned refs are not empty; the white space that the
    pattern allows after the label runs over an empty refs line into the
    COACHING line. *)
Example post_validate_refs_twice :
  post_validate_refs decode_placement
    (T "Sure." ++ ScoreFacts.NL ++ T "REFS: e4, e5 , central files" ++ ScoreFacts.NL
     ++ T "COACHING: Fine." ++ ScoreFacts.NL ++ T "Good luck.") ScoreFacts.fen_after_e4
  = Some (T "REFS: e4, central files" ++ ScoreFacts.NL ++ T "COACHING: Fine.", 1) /\
  post_validate_refs decode_placement
    (T "REFS: e4, central files" ++ ScoreFacts.NL ++ T "COACHING: Fine.")
    ScoreFacts.fen_after_e4
  = Some (T "REFS: e4, central files" ++ ScoreFacts.NL ++ T "COACHING: Fine.", 0).
Proof. split; vm_compute; reflexivity. Qed.

Example post_validate_refs_empty_refs_line :
  post_validate_refs decode_placement
    (T "REFS: ,e5" ++ ScoreFacts.NL ++ T "COACHING: Fine.") ScoreFacts.fen_after_e4
  = Some (T "REFS: " ++ ScoreFacts.NL ++ T "COACHING: Fine.", 1) /\
  post_validate_refs decode_placement
    (T "REFS: " ++ ScoreFacts.NL ++ T "COACHING: Fine.") ScoreFacts.fen_after_e4
  = Some (T "REFS: COACHING: Fine." ++ ScoreFacts.NL ++ T "COACHING: Fine.", 0).
Proof. split; vm_compute; reflexivity. Qed.

(** The square tokens that a refs text shows. *)
Definition shown_squares (refs : text) : list text :=
  map BenchM4.group1 (finditer SQUARE_TOKEN refs).

(** C2 at a failing input.  After 1.e4 the fragment [e4 e5] passes both
    filters unchanged, because its first token [e4] is occupied; the cleaned
    refs show the square [e5], which is empty. *)
Theorem post_validation_delivers_empty_square :
  exists board e5,
    decode_placement ScoreFacts.fen_after_e4 = Some board /\
    parse_square (T "e5") = Some e5 /\ piece_at board e5 = None /\
    clean_refs board (T "e4 e5") = Some (T "e4 e5", 0) /\
    In (T "e5") (shown_squares (T "e4 e5")) /\
    post_validate_refs decode_placement
      (T "REFS: e4 e5" ++ ScoreFacts.NL ++ T "COACHING: Push on.") ScoreFacts.fen_after_e4
    = Some (T "REFS: e4 e5" ++ ScoreFacts.NL ++ T "COACHING: Push on.", 0) /\
    BenchFinalAccuracy.post_validate_response decode_placement
      [T "e4"; T "e5"] (T "e4 e5") (T "Push on.") ScoreFacts.fen_after_e4
    = Some ([T "e4 e5"], 0, false).
Proof.
  destruct (decode_placement ScoreFacts.fen_after_e4) as [board|] eqn:E;
    [|vm_compute in E; discriminate].
  exists board, 36. split; [reflexivity|].
  vm_compute in E. inversion E; subst board.
  repeat split; try (vm_compute; reflexivity).
  - vm_compute. auto.
Qed.

End PostValidationFacts.

(** ** Format detection *)

Module FormatFacts.
Import ReFacts ExtractFacts.

Lemma lower_lit_ok : forall s w, lower w = s -> lit_ok true s w = true.
Proof.
  induction s as [|x s IH]; intros [|c w] H; simpl in *; try discriminate; auto.
  unfold lower in H. simpl in H. inv H.
  unfold chr_eqb. rewrite Ascii.eqb_refl. simpl. now apply IH.
Qed.

Lemma lit_ok_refl : forall s, lit_ok false s s = true.
Proof.
  induction s as [|x s IH]; simpl; auto.
  unfold chr_eqb. now rewrite Ascii.eqb_refl.
Qed.

Lemma forallb_app_true (p : ascii -> bool) u v :
  forallb p u = true -> forallb p v = true -> forallb p (u ++ v) = true.
Proof. intros. rewrite forallb_app. now apply andb_true_intro. Qed.

(** The rest of a line: the longest run without line feed. *)
Lemma line_rest : forall s,
  exists g post, s = g ++ post /\ forallb not_newline g = true /\ at_eol post = true.
Proof.
  induction s as [|c s (g & post & -> & Hg & Hp)].
  - exists [], []. auto.
  - destruct (chr_eqb c "010") eqn:E.
    + exists [], (c :: g ++ post). simpl. auto.
    + exists (c :: g), post. simpl. unfold not_newline at 1. rewrite E. auto.
Qed.

Definition blank : charset := one_of [" "; "009"]%char.

Definition sep : charset := one_of (T ":=").

(** A text has the label [kw] when, at the start of a line, after blanks and
    tabs, it shows the word [kw] in any case, white space, and a colon or an
    equals sign. *)
Definition has_label (kw : text) (t : text) : Prop :=
  exists pre ind word ws c rest,
    t = pre ++ ind ++ word ++ ws ++ c :: rest /\
    at_bol (rev pre) = true /\
    forallb blank ind = true /\
    lower word = kw /\
    forallb isspace ws = true /\
    (c = ":"%char \/ c = "="%char).

Lemma sep_spec c : sep c = true <-> c = ":"%char \/ c = "="%char.
Proof.
  unfold sep, one_of. simpl. rewrite !orb_true_iff. unfold chr_eqb.
  rewrite !Ascii.eqb_eq. intuition discriminate.
Qed.

(** The head common to the label patterns. *)
Lemma label_head_inv kw (tail : regex) l w a g g' :
  Matches (seq [Bol; Star blank; LitI kw; Star isspace; Chr sep; tail]) l w a g g' ->
  exists ind word ws c w',
    w = ind ++ word ++ ws ++ c :: w' /\ at_bol l = true /\
    forallb blank ind = true /\ lower word = kw /\
    forallb isspace ws = true /\ sep c = true.
Proof.
  cbn [seq]. intros M.
  repeat match goal with
         | H : Matches (Cat _ _) _ _ _ _ _ |- _ => inv H
         end.
  repeat match goal with
         | H : Matches Bol _ _ _ _ _ |- _ => inv H
         | H : Matches (Star _) _ _ _ _ _ |- _ => inv H
         | H : Matches (LitI _) _ _ _ _ _ |- _ => inv H
         | H : Matches (Chr _) _ _ _ _ _ |- _ => inv H
         end.
  match goal with H : lit_ok true _ _ = true |- _ => apply lit_ok_ci_lower in H end.
  eexists _, _, _, _, _. repeat split; eauto.
Qed.

Lemma label_head_found kw tail s m :
  search (seq [Bol; Star blank; LitI kw; Star isspace; Chr sep; tail]) s = Some m ->
  has_label kw s.
Proof.
  intros H. apply search_sound in H.
  destruct H as (pre & w & E1 & E2 & E3 & M).
  apply label_head_inv in M.
  destruct M as (ind & word & ws & c & w' & -> & Hb & Hi & Hw & Hs & Hc).
  exists pre, ind, word, ws, c, (w' ++ m_rest m). repeat split; auto.
  - rewrite E1. now rewrite <- !app_assoc.
  - rewrite E2, app_nil_r in Hb. exact Hb.
  - now apply sep_spec.
Qed.

Lemma refs_line_complete s : has_label (T "refs") s -> search REFS_LINE s <> None.
Proof.
  intros (pre & ind & word & ws & c & rest & -> & Hb & Hi & Hw & Hs & Hc).
  destruct (line_rest rest) as (g & post & -> & Hg & Hp).
  replace (pre ++ ind ++ word ++ ws ++ c :: g ++ post)
    with (pre ++ ([] ++ ind ++ word ++ ws ++ [c] ++ [] ++ g ++ []) ++ post)
    by (simpl; now rewrite app_nil_r, <- !app_assoc).
  apply search_complete with (g' := set_group 1 g no_groups).
  unfold REFS_LINE. cbn [seq].
  repeat (apply M_Cat || eapply M_Cat).
  - now constructor.
  - now constructor.
  - constructor. now apply lower_lit_ok.
  - now constructor.
  - constructor. now apply sep_spec.
  - now constructor.
  - constructor. now constructor.
  - now constructor.
Qed.

Lemma coaching_section_complete s :
  has_label (T "coaching") s -> search COACHING_SECTION s <> None.
Proof.
  intros (pre & ind & word & ws & c & rest & -> & Hb & Hi & Hw & Hs & Hc).
  replace (pre ++ ind ++ word ++ ws ++ c :: rest)
    with (pre ++ ([] ++ ind ++ word ++ ws ++ [c] ++ [] ++ []) ++ rest)
    by (simpl; now rewrite <- !app_assoc).
  apply search_complete with (g' := set_group 1 [] no_groups).
  unfold COACHING_SECTION. cbn [seq].
  repeat (apply M_Cat || eapply M_Cat).
  - now constructor.
  - now constructor.
  - constructor. now apply lower_lit_ok.
  - now constructor.
  - constructor. now apply sep_spec.
  - now constructor.
  - constructor. now constructor.
Qed.

Lemma has_label_nonempty kw t : has_label kw t -> t <> [].
Proof.
  intros (pre & ind & word & ws & c & rest & -> & _) H.
  apply app_eq_nil in H. destruct H as [_ H].
  apply app_eq_nil in H. destruct H as [_ H].
  apply app_eq_nil in H. destruct H as [_ H].
  apply app_eq_nil in H. destruct H as [_ H]. discriminate.
Qed.

Lemma is_some_true (A : Type) (o : option A) : is_some o = true <-> o <> None.
Proof. destruct o; simpl; split; congruence. Qed.

Section Format.

Variable xml_parsed : text -> bool.

(** C8, as the code has it.  For the id [refs_coaching] the detection
    returns a boolean, and it is true exactly when the evaluated text, the
    response after the strip and the removal of the leading reasoning block,
    has a REFS label and a COACHING label: at the start of a line, after
    optional blanks and tabs, the word in any case, optional white space, and
    a colon or an equals sign. *)
Theorem format_ok_refs_coaching (response : text) :
  (exists b, format_ok xml_parsed response (T "refs_coaching") = Some b) /\
  (format_ok xml_parsed response (T "refs_coaching") = Some true <->
   has_label (T "refs") (evaluated response) /\
   has_label (T "coaching") (evaluated response)).
Proof.
  unfold format_ok.
  change (strip (lower (T "refs_coaching"))) with (T "refs_coaching").
  change (text_eqb (T "refs_coaching") (T "refs_coaching")) with true. cbv iota.
  destruct (evaluated response) as [|c t] eqn:E.
  - split; [eauto|]. split; [discriminate|].
    intros [H _]. now apply has_label_nonempty in H.
  - split; [eauto|]. unfold parse_refs_coaching. cbn [pr_ok]. split.
    + intros H. inv H. apply andb_prop in H1. destruct H1 as [H1 H2].
      destruct (search REFS_LINE (c :: t)) as [m1|] eqn:E1; [|discriminate].
      destruct (search COACHING_SECTION (c :: t)) as [m2|] eqn:E2; [|discriminate].
      split.
      * exact (label_head_found (T "refs")
                 (seq [Star isspace; Grp 1 (Star not_newline); Eol]) _ m1 E1).
      * exact (label_head_found (T "coaching")
                 (seq [Star isspace; Grp 1 (Star any)]) _ m2 E2).
    + intros [H1 H2]. apply refs_line_complete in H1.
      apply coaching_section_complete in H2.
      apply is_some_true in H1, H2. now rewrite H1, H2.
Qed.

End Format.


(** The rule as the specification words it: a line matching [^REFS:\s*(.* )]
    and a line matching [^COACHING:\s*(.* )], multiline and without regard to
    case, in the evaluated text. *)
Definition SPEC_REFS_LINE : regex :=
  seq [ Bol; LitI (T "refs:"); Star isspace; Grp 1 (Star not_newline) ].

Definition SPEC_COACHING_LINE : regex :=
  seq [ Bol; LitI (T "coaching:"); Star isspace; Grp 1 (Star not_newline) ].

Definition spec_refs_coaching_ok (response : text) : bool :=
  is_some (search SPEC_REFS_LINE (evaluated response)) &&
  is_some (search SPEC_COACHING_LINE (evaluated response)).

(** The claim as stated fails: labels that are indented, or closed by an
    equals sign, are accepted by the code and not by the two patterns. *)
Lemma format_ok_refs_coaching_lenient :
  format_ok (fun _ => false)
    (T "  REFS = pawn e4" ++ ScoreFacts.NL ++ T "  COACHING = Good central control.")
    (T "refs_coaching") = Some true /\
  spec_refs_coaching_ok
    (T "  REFS = pawn e4" ++ ScoreFacts.NL ++ T "  COACHING = Good central control.")
  = false.
Proof. split; vm_compute; reflexivity. Qed.

Lemma format_ok_refs_coaching_witness :
  has_label (T "refs")
    (evaluated (T "REFS: pawn e4" ++ ScoreFacts.NL ++ T "COACHING: Good central control.")) /\
  has_label (T "coaching")
    (evaluated (T "REFS: pawn e4" ++ ScoreFacts.NL ++ T "COACHING: Good central control.")).
Proof.
  apply (proj1 (proj2 (format_ok_refs_coaching (fun _ => false)
           (T "REFS: pawn e4" ++ ScoreFacts.NL ++ T "COACHING: Good central control.")))).
  vm_compute. reflexivity.
Defined.

(** *** Fenced JSON *)

(** The evaluated text shows a fenced object: three backquotes, nothing or
    [json], white space, a text in braces, white space, three backquotes. *)
Definition has_fenced_object (t : text) : Prop :=
  exists pre tag ws1 inner ws2 post,
    t = pre ++ T "```" ++ tag ++ ws1 ++ T "{" ++ inner ++ T "}" ++ ws2 ++ T "```" ++ post /\
    (tag = [] \/ tag = T "json") /\
    forallb isspace ws1 = true /\ forallb isspace ws2 = true.

Lemma forallb_any w : forallb any w = true.
Proof. induction w; simpl; auto. Qed.

Lemma fenced_object_complete t : has_fenced_object t -> search FENCED_OBJECT t <> None.
Proof.
  intros (pre & tag & ws1 & inner & ws2 & post & -> & Ht & H1 & H2).
  replace (pre ++ T "```" ++ tag ++ ws1 ++ T "{" ++ inner ++ T "}" ++ ws2 ++ T "```" ++ post)
    with (pre ++ (T "```" ++ tag ++ ws1 ++ [] ++ [] ++ T "{" ++ inner ++ T "}" ++ ws2 ++ T "```")
              ++ post)
    by (repeat (progress (simpl; rewrite <- ?app_assoc)); reflexivity).
  apply search_complete with (g' := no_groups).
  unfold FENCED_OBJECT. cbn [seq].
  repeat (apply M_Cat || eapply M_Cat).
  - constructor. apply lit_ok_refl.
  - destruct Ht as [-> | ->].
    + apply M_OptNo.
    + apply M_OptYes. constructor. apply lit_ok_refl.
  - now constructor.
  - apply M_OptNo.
  - now constructor.
  - constructor. apply lit_ok_refl.
  - constructor. apply forallb_any.
  - constructor. apply lit_ok_refl.
  - now constructor.
  - constructor. apply lit_ok_refl.
Qed.

Lemma opt_lit_inv s l w a g g' :
  Matches (Opt (Lit s)) l w a g g' -> w = [] \/ w = s.
Proof.
  intros M. inv M; auto.
  match goal with H : Matches (Lit _) _ _ _ _ _ |- _ => inv H end.
  match goal with H : lit_ok false _ _ = true |- _ => apply lit_ok_cs_eq in H end.
  auto.
Qed.

Lemma fenced_object_inv l w a g g' :
  Matches FENCED_OBJECT l w a g g' ->
  exists tag ws1 inner ws2,
    w = T "```" ++ tag ++ ws1 ++ T "{" ++ inner ++ T "}" ++ ws2 ++ T "```" /\
    (tag = [] \/ tag = T "json") /\
    forallb isspace ws1 = true /\ forallb isspace ws2 = true.
Proof.
  unfold FENCED_OBJECT. cbn [seq]. intros M.
  repeat match goal with
         | H : Matches (Cat _ _) _ _ _ _ _ |- _ => inv H
         end.
  repeat match goal with
         | H : Matches (Star _) _ _ _ _ _ |- _ => inv H
         | H : Matches (StarLazy _) _ _ _ _ _ |- _ => inv H
         | H : Matches (Lit _) _ _ _ _ _ |- _ => inv H
         | H : lit_ok false _ _ = true |- _ => apply lit_ok_cs_eq in H; subst
         end.
  match goal with
  | H1 : Matches (Opt (Lit (_ :: _ :: _))) _ ?tag
           ((?wa ++ ?nl ++ ?wb ++ _ ++ ?inner ++ _ ++ ?wc ++ _) ++ _) _ _,
    H2 : Matches (Opt (Lit [_])) _ ?nl _ _ _ |- _ =>
      apply opt_lit_inv in H1; apply opt_lit_inv in H2;
      exists tag, (wa ++ nl ++ wb), inner, wc
  end.
  repeat split; auto.
  - now rewrite <- !app_assoc.
  - repeat apply forallb_app_true; auto.
    match goal with H : _ = [] \/ _ = ["010"%char] |- _ => destruct H as [-> | ->] end;
      reflexivity.
Qed.

Lemma fenced_object_found t m : search FENCED_OBJECT t = Some m -> has_fenced_object t.
Proof.
  intros H. apply search_sound in H. destruct H as (pre & w & E1 & _ & _ & M).
  apply fenced_object_inv in M.
  destruct M as (tag & ws1 & inner & ws2 & -> & Ht & H1 & H2).
  exists pre, tag, ws1, inner, ws2, (m_rest m). repeat split; auto.
  rewrite E1. now rewrite <- !app_assoc.
Qed.

Lemma has_fenced_object_nonempty t : has_fenced_object t -> t <> [].
Proof.
  intros (pre & tag & ws1 & inner & ws2 & post & -> & _) H.
  apply app_eq_nil in H. destruct H as [_ H]. discriminate.
Qed.

(** C6, as the code has it.  For the id [fenced_json] the detection returns
    a boolean, true exactly when the evaluated text, the response after the
    strip and the removal of the leading reasoning block, shows a fenced
    object; what [json_flat] would say of the text plays no part. *)
Theorem format_ok_fenced_json (xml_parsed : text -> bool) (response : text) :
  (exists b, format_ok xml_parsed response (T "fenced_json") = Some b) /\
  (format_ok xml_parsed response (T "fenced_json") = Some true <->
   has_fenced_object (evaluated response)).
Proof.
  unfold format_ok.
  change (strip (lower (T "fenced_json"))) with (T "fenced_json").
  change (text_eqb (T "fenced_json") (T "refs_coaching")) with false.
  change (text_eqb (T "fenced_json") (T "coaching_only")) with false.
  change (text_eqb (T "fenced_json") (T "json_flat")) with false.
  change (text_eqb (T "fenced_json") (T "json_nested")) with false.
  change (text_eqb (T "fenced_json") (T "single_line_json")) with false.
  change (text_eqb (T "fenced_json") (T "fenced_json")) with true.
  cbv iota. cbn [orb].
  destruct (evaluated response) as [|c t] eqn:E.
  - split; [eauto|]. split; [discriminate|].
    intros H. now apply has_fenced_object_nonempty in H.
  - split; [eauto|]. split.
    + intros H. inv H.
      destruct (search FENCED_OBJECT (c :: t)) as [m|] eqn:Es; [|discriminate].
      eapply fenced_object_found; eauto.
    + intros H. apply fenced_object_complete, is_some_true in H. now rewrite H.
Qed.

(** A fenced block holding a JSON object, as the claim words it: an opening
    fence with an info string, a line break, a body that decodes to an
    object, and a closing fence. *)
Definition spec_fenced_json_block (t : text) : Prop :=
  exists pre info body post kvs,
    t = pre ++ T "```" ++ info ++ ScoreFacts.NL ++ body ++ T "```" ++ post /\
    ~ In "010"%char info /\
    loads body = Some (JObject kvs).

Definition sample_block : text :=
  T "```json" ++ ScoreFacts.NL ++ Tq "{'coaching': 'x', 'refs': ['e4']}" ++ ScoreFacts.NL
  ++ T "```".

Definition upper_tag_block : text :=
  T "```JSON" ++ ScoreFacts.NL ++ Tq "{'refs': ['e4']}" ++ ScoreFacts.NL ++ T "```".

Definition block_in_reasoning : text :=
  T "<think>Draft: " ++ sample_block ++ T "</think>" ++ ScoreFacts.NL ++ T "Play e4.".

(** The claim as stated fails.  A fenced JSON block whose fence carries
    another info string than [json] in lower case is not detected; and a
    fenced JSON block inside the reasoning block is stripped with it before
    the detection. *)
Lemma format_ok_fenced_json_misses :
  (spec_fenced_json_block upper_tag_block /\
   format_ok (fun _ => false) upper_tag_block (T "fenced_json") = Some false) /\
  (spec_fenced_json_block block_in_reasoning /\
   format_ok (fun _ => false) block_in_reasoning (T "fenced_json") = Some false).
Proof.
  split; (split; [|vm_compute; reflexivity]).
  - exists [], (T "JSON"), (Tq "{'refs': ['e4']}" ++ ScoreFacts.NL), [].
    eexists. split; [reflexivity|]. split.
    + vm_compute. intuition discriminate.
    + vm_compute. reflexivity.
  - exists (T "<think>Draft: "), (T "json"),
           (Tq "{'coaching': 'x', 'refs': ['e4']}" ++ ScoreFacts.NL),
           (T "</think>" ++ ScoreFacts.NL ++ T "Play e4.").
    eexists. split; [reflexivity|]. split.
    + vm_compute. intuition discriminate.
    + vm_compute. reflexivity.
Qed.

(** Scenario 5: the same text passes as [fenced_json] and as [json_flat]. *)
Example format_ok_fenced_and_flat :
  format_ok (fun _ => false) sample_block (T "fenced_json") = Some true /\
  format_ok (fun _ => false) sample_block (T "json_flat") = Some true.
Proof. split; vm_compute; reflexivity. Qed.

Lemma format_ok_fenced_json_witness :
  format_ok (fun _ => false) sample_block (T "fenced_json") = Some true.
Proof.
  apply (proj2 (proj2 (format_ok_fenced_json (fun _ => false) sample_block))).
  exists [], (T "json"), ScoreFacts.NL, (Tq "'coaching': 'x', 'refs': ['e4']"),
         ScoreFacts.NL, [].
  repeat split; auto.
Defined.

End FormatFacts.

(** ** The fuel of the JSON decoder *)

Module JsonFacts.
Import ReFacts ExtractFacts.

Lemma skip_ws_length s : length (skip_ws s) <= length s.
Proof.
  induction s as [|c s IH]; simpl; [lia|]. destruct (is_ws c); simpl; lia.
Qed.

Lemma skip_ws_cons s c rest : skip_ws s = c :: rest -> length rest < length s.
Proof.
  intros H. pose proof (skip_ws_length s) as L. rewrite H in L. simpl in L. lia.
Qed.

Lemma startswith_length : forall p s, startswith p s = true -> length p <= length s.
Proof.
  induction p as [|a p IH]; intros [|b s] H; simpl in *; try lia; try discriminate.
  apply andb_prop in H. destruct H as [_ H]. apply IH in H. lia.
Qed.

Lemma skipn_shorter n (s : text) : 0 < n -> n <= length s -> length (skipn n s) < length s.
Proof. intros H1 H2. rewrite length_skipn. lia. Qed.

Lemma scanstring_shorter : forall n s out k rest,
  length s <= n -> scanstring s out = Some (k, rest) -> length rest < length s.
Proof.
  induction n as [|n IH]; intros s out k rest Hn H.
  - destruct s; simpl in *; [discriminate|lia].
  - destruct s as [|c r]; [discriminate|]. cbn [scanstring] in H. simpl in Hn.
    destruct (chr_eqb c "034"); [inv H; simpl; lia|].
    destruct (code c <? 32); [discriminate|].
    destruct (chr_eqb c "\"); [|apply IH in H; simpl in *; lia].
    destruct r as [|e r1]; [discriminate|].
    destruct (chr_eqb e "u").
    + destruct r1 as [|h1 [|h2 [|h3 [|h4 r']]]]; try discriminate.
      destruct (hex4 h1 h2 h3 h4); [|discriminate].
      destruct r' as [|b [|u [|k1 [|k2 [|k3 [|k4 r'']]]]]];
        try (apply IH in H; simpl in *; lia).
      destruct (hex4 k1 k2 k3 k4);
        [destruct (chr_eqb b "\" && chr_eqb u "u" && surrogate_pair _ _)|];
        apply IH in H; simpl in *; lia.
    + destruct (simple_escape e); [|discriminate]. apply IH in H; simpl in *; lia.
Qed.

Lemma number_shorter s m : match_at NUMBER_RE [] s = Some m -> length (m_rest m) < length s.
Proof.
  intros H. apply match_at_sound in H. destruct H as (w & -> & _ & _ & M).
  rewrite length_app. enough (0 < length w) by lia.
  unfold NUMBER_RE in M. cbn [seq] in M. inv M.
  match goal with H : Matches (Cat (Alt _ _) _) _ _ _ _ _ |- _ => inv H end.
  match goal with H : Matches (Alt _ _) _ _ _ _ _ |- _ => inv H end.
  - match goal with H : Matches (Lit _) _ _ _ _ _ |- _ => inv H end.
    match goal with H : lit_ok false _ _ = true |- _ => apply lit_ok_cs_eq in H; subst end.
    rewrite !length_app. simpl. lia.
  - match goal with H : Matches (Cat (Chr _) _) _ _ _ _ _ |- _ => inv H end.
    match goal with H : Matches (Chr _) _ _ _ _ _ |- _ => inv H end.
    rewrite !length_app. simpl. lia.
Qed.

Lemma some_snd (A B : Type) (a a' : A) (b b' : B) :
  Some (a, b) = Some (a', b') -> b = b'.
Proof. congruence. Qed.

Lemma scan_atom_shorter s v rest : scan_atom s = Some (v, rest) -> length rest < length s.
Proof.
  unfold scan_atom, constant.
  repeat match goal with
         | |- context [startswith ?p s] =>
             let E := fresh "E" in
             destruct (startswith p s) eqn:E;
             [apply startswith_length in E; simpl in E; cbv beta iota;
              intros H; apply some_snd in H; rewrite <- H;
              apply skipn_shorter; simpl; lia
             |cbv beta iota]
         | |- context [match_at NUMBER_RE [] s] =>
             let E := fresh "E" in
             destruct (match_at NUMBER_RE [] s) eqn:E;
             [apply number_shorter in E; intros H; apply some_snd in H;
              rewrite <- H; exact E|]
         end.
  discriminate.
Qed.

(** A value, the members of an object and the items of an array all consume
    input. *)
Lemma scan_shorter : forall fuel,
  (forall s v rest, scan_once fuel s = Some (v, rest) -> length rest < length s) /\
  (forall s out kvs rest, members fuel s out = Some (kvs, rest) -> length rest < length s) /\
  (forall s out vs rest, items fuel s out = Some (vs, rest) -> length rest < length s).
Proof.
  induction fuel as [|fuel (IHs & IHm & IHi)]; [repeat split; discriminate|].
  repeat split.
  - intros s v rest H. cbn [scan_once] in H.
    destruct s as [|c r]; [discriminate|].
    destruct (chr_eqb c "034").
    { destruct (scanstring r []) as [[k r']|] eqn:E; [|discriminate]. inv H.
      apply (scanstring_shorter (length r)) in E; simpl; lia. }
    destruct (chr_eqb c "{").
    { destruct (skip_ws r) as [|c' r'] eqn:E; [discriminate|]. apply skip_ws_cons in E.
      destruct (chr_eqb c' "}"); [inv H; simpl; lia|].
      destruct (chr_eqb c' "034"); [|discriminate].
      destruct (members fuel r' []) as [[kvs r'']|] eqn:Em; [|discriminate]. inv H.
      apply IHm in Em. simpl. lia. }
    destruct (chr_eqb c "[").
    { destruct (skip_ws r) as [|c' r'] eqn:E; [discriminate|]. apply skip_ws_cons in E.
      destruct (chr_eqb c' "]"); [inv H; simpl; lia|].
      destruct (items fuel (c' :: r') []) as [[vs r'']|] eqn:Ei; [|discriminate]. inv H.
      apply IHi in Ei. simpl in *. lia. }
    now apply scan_atom_shorter in H.
  - intros s out kvs rest H. cbn [members] in H.
    destruct (scanstring s []) as [[key r0]|] eqn:E0; [|discriminate].
    apply (scanstring_shorter (length s)) in E0; [|lia].
    destruct (skip_ws r0) as [|c1 r1] eqn:E1; [discriminate|]. apply skip_ws_cons in E1.
    destruct (chr_eqb c1 ":"); [|discriminate].
    destruct (scan_once fuel (skip_ws r1)) as [[v r2]|] eqn:E2; [|discriminate].
    apply IHs in E2. pose proof (skip_ws_length r1).
    destruct (skip_ws r2) as [|c3 r3] eqn:E3; [discriminate|]. apply skip_ws_cons in E3.
    destruct (chr_eqb c3 "}"); [inv H; lia|].
    destruct (chr_eqb c3 ","); [|discriminate].
    destruct (skip_ws r3) as [|c4 r4] eqn:E4; [discriminate|]. apply skip_ws_cons in E4.
    destruct (chr_eqb c4 "034"); [|discriminate].
    apply IHm in H. lia.
  - intros s out vs rest H. cbn [items] in H.
    destruct (scan_once fuel s) as [[v r0]|] eqn:E0; [|discriminate]. apply IHs in E0.
    destruct (skip_ws r0) as [|c1 r1] eqn:E1; [discriminate|]. apply skip_ws_cons in E1.
    destruct (chr_eqb c1 "]"); [inv H; lia|].
    destruct (chr_eqb c1 ","); [|discriminate].
    apply IHi in H. pose proof (skip_ws_length r1). lia.
Qed.

(** Above twice the length of the text the fuel plays no part. *)
Lemma scan_fuel : forall f1,
  (forall s f2, 2 * length s < f1 -> 2 * length s < f2 ->
                scan_once f1 s = scan_once f2 s) /\
  (forall s out f2, 2 * length s + 1 < f1 -> 2 * length s + 1 < f2 ->
                    members f1 s out = members f2 s out) /\
  (forall s out f2, 2 * length s + 1 < f1 -> 2 * length s + 1 < f2 ->
                    items f1 s out = items f2 s out).
Proof.
  induction f1 as [|f1 (IHs & IHm & IHi)]; [repeat split; intros; lia|].
  repeat split.
  - intros s [|f2] H1 H2; [lia|]. cbn [scan_once].
    destruct s as [|c r]; [reflexivity|]. simpl in H1, H2.
    destruct (chr_eqb c "034"); [reflexivity|].
    destruct (chr_eqb c "{").
    { destruct (skip_ws r) as [|c' r'] eqn:E; [reflexivity|]. apply skip_ws_cons in E.
      destruct (chr_eqb c' "}"); [reflexivity|].
      destruct (chr_eqb c' "034"); [|reflexivity].
      rewrite (IHm r' [] f2); [reflexivity|lia|lia]. }
    destruct (chr_eqb c "[").
    { destruct (skip_ws r) as [|c' r'] eqn:E; [reflexivity|]. apply skip_ws_cons in E.
      destruct (chr_eqb c' "]"); [reflexivity|].
      rewrite (IHi (c' :: r') [] f2); [reflexivity|simpl; lia|simpl; lia]. }
    reflexivity.
  - intros s out [|f2] H1 H2; [lia|]. cbn [members].
    destruct (scanstring s []) as [[key r0]|] eqn:E0; [|reflexivity].
    apply (scanstring_shorter (length s)) in E0; [|lia].
    destruct (skip_ws r0) as [|c1 r1] eqn:E1; [reflexivity|]. apply skip_ws_cons in E1.
    destruct (chr_eqb c1 ":"); [|reflexivity].
    pose proof (skip_ws_length r1).
    rewrite (IHs (skip_ws r1) f2); [|lia|lia].
    destruct (scan_once f2 (skip_ws r1)) as [[v r2]|] eqn:E2; [|reflexivity].
    apply (proj1 (scan_shorter f2)) in E2.
    destruct (skip_ws r2) as [|c3 r3] eqn:E3; [reflexivity|]. apply skip_ws_cons in E3.
    destruct (chr_eqb c3 "}"); [reflexivity|].
    destruct (chr_eqb c3 ","); [|reflexivity].
    destruct (skip_ws r3) as [|c4 r4] eqn:E4; [reflexivity|]. apply skip_ws_cons in E4.
    destruct (chr_eqb c4 "034"); [|reflexivity].
    apply IHm; lia.
  - intros s out [|f2] H1 H2; [lia|]. cbn [items].
    rewrite (IHs s f2); [|lia|lia].
    destruct (scan_once f2 s) as [[v r0]|] eqn:E0; [|reflexivity].
    apply (proj1 (scan_shorter f2)) in E0.
    destruct (skip_ws r0) as [|c1 r1] eqn:E1; [reflexivity|]. apply skip_ws_cons in E1.
    destruct (chr_eqb c1 "]"); [reflexivity|].
    destruct (chr_eqb c1 ","); [|reflexivity].
    pose proof (skip_ws_length r1). apply IHi; lia.
Qed.

(** [loads] with any greater fuel gives the same result: a [None] of the
    model is a refusal of the decoder, not a lack of fuel. *)
Lemma loads_fuel (s : text) (fuel : nat) :
  2 * length s + 2 <= fuel ->
  scan_once fuel (skip_ws s) = scan_once (2 * length s + 2) (skip_ws s).
Proof.
  intros H. pose proof (skip_ws_length s).
  apply (proj1 (scan_fuel fuel)); lia.
Qed.

End JsonFacts.

(** ** The repair pass of the alignment JSON *)

Module JsonRepairFacts.
Import ExtractFacts BenchM4.










(** The literals are rewritten only after a colon. *)
Example fix_literals_after_colon :
  fix_literals (Tq "{'a':   True, 'b': positive, 'c': [False], 'd': Truest}")
  = Tq "{'a': true, 'b': 'positive', 'c': [False], 'd': Truest}".
Proof. vm_compute. reflexivity. Qed.

(** An object nested three deep ends in three braces and loses one. *)
Example drop_braces_nested :
  drop_braces (Tq "{'a': {'b': {'c': 1}}}") = Tq "{'a': {'b': {'c': 1}}".
Proof. vm_compute. reflexivity. Qed.

End JsonRepairFacts.
